(** * Typed iteration and pagination layer of the ORM package

    A shallow embedding of [orm/iterator.go]: the [Iterator] interface, the
    provided iterators ([NewSingleValueIterator], [NewInvalidIterator],
    [LimitedIterator]) and the retrieval operations built on top of them
    ([Paginate], [ReadAll], [assertDest]).

    Go values are embedded as follows.
    - A byte slice is [option (list byte)]: [None] is the nil slice and
      [Some l] a non-nil slice, so that [val == nil] and [len(key) != 0]
      remain different tests.
    - [uint64] and [int] are [Z] with the wrap-around written out.
    - An interface value that may be nil is an [option].
    - A method mutating its receiver returns the new receiver. *)

From Stdlib Require Import ZArith List Bool String Lia Permutation.
Import ListNotations.
Open Scope Z_scope.

Set Implicit Arguments.

(** ** Go slices *)

Definition slice (A : Type) : Type := option (list A).

Definition len {A : Type} (s : slice A) : Z :=
  match s with
  | None => 0
  | Some l => Z.of_nat (List.length l)
  end.

Definition is_nil {A : Type} (s : slice A) : bool :=
  match s with
  | None => true
  | Some _ => false
  end.

(** [append(s, x)]: appending to the nil slice allocates. *)
Definition append {A : Type} (s : slice A) (x : A) : slice A :=
  match s with
  | None => Some [x]
  | Some l => Some (l ++ [x])
  end.

Definition elems {A : Type} (s : slice A) : list A :=
  match s with
  | None => []
  | Some l => l
  end.

Definition bytes : Type := slice Byte.byte.

(** [type RowID []byte] *)
Definition RowID : Type := bytes.

(** ** Machine integers *)

Definition wrap_uint64 (z : Z) : Z := z mod 2 ^ 64.

Definition wrap_int (z : Z) : Z := (z + 2 ^ 63) mod 2 ^ 64 - 2 ^ 63.

(** ** Errors *)

(** Modelled from the spec: the registered errors [ErrArgument],
    [ErrIteratorDone] and [ErrIteratorInvalid] are declared in a file of the
    package that is not part of the sources at hand; section 7 of the
    specification gives the taxonomy.  They are distinct sentinels compared
    by identity. *)
Inductive sentinel : Type :=
| ErrArgument
| ErrIteratorDone
| ErrIteratorInvalid.

Definition sentinel_eqb (a b : sentinel) : bool :=
  match a, b with
  | ErrArgument, ErrArgument => true
  | ErrIteratorDone, ErrIteratorDone => true
  | ErrIteratorInvalid, ErrIteratorInvalid => true
  | _, _ => false
  end.

(** A Go [error] value: a registered sentinel, a sentinel wrapped with a
    message ([errors.Wrap], [errors.Wrapf]), a plain [fmt.Errorf] error, or an
    opaque error produced by a record's [Unmarshal]. *)
Inductive error : Type :=
| Registered (e : sentinel)
| Wrap (cause : error) (msg : string)
| Errorf (msg : string)
| DecodeError (code : nat).

(** [e.Is(target)] of a registered error: walks the chain of causes of
    [target]; a nil target never matches a non-nil sentinel. *)
Fixpoint Is_err (e : sentinel) (target : error) : bool :=
  match target with
  | Registered e' => sentinel_eqb e e'
  | Wrap cause _ => Is_err e cause
  | Errorf _ => false
  | DecodeError _ => false
  end.

Definition Is (e : sentinel) (target : option error) : bool :=
  match target with
  | None => false
  | Some t => Is_err e t
  end.

(** Outcome of a call that may panic. *)
Inductive outcome (A : Type) : Type :=
| Returns (a : A)
| Panics (msg : string).

Arguments Panics {A} msg.

(** ** Run-time types

    What the code asks of [reflect]: the kind of a type, the element type of
    a pointer or slice type, and whether a type implements
    [codec.ProtoMarshaler]. *)

Inductive Kind : Type :=
| Invalid
| Interface
| Ptr
| Slice
| Struct
| Uint64.

Definition kind_eqb (a b : Kind) : bool :=
  match a, b with
  | Invalid, Invalid | Interface, Interface | Ptr, Ptr
  | Slice, Slice | Struct, Struct | Uint64, Uint64 => true
  | _, _ => false
  end.

(** The types a destination can have: declared struct and interface types,
    a basic type, and the pointer and slice types built from them. *)
Inductive GoType : Type :=
| StructType (name : string)
| InterfaceType (name : string)
| BasicUint64
| PtrTo (elem : GoType)
| SliceOf (elem : GoType).

(** [t.Kind()] *)
Definition kind_of (t : GoType) : Kind :=
  match t with
  | StructType _ => Struct
  | InterfaceType _ => Interface
  | BasicUint64 => Uint64
  | PtrTo _ => Ptr
  | SliceOf _ => Slice
  end.

(** [t.String()], used in error messages only. *)
Fixpoint type_string (t : GoType) : string :=
  match t with
  | StructType name => name
  | InterfaceType name => name
  | BasicUint64 => "uint64"
  | PtrTo elem => String.append "*" (type_string elem)
  | SliceOf elem => String.append "[]" (type_string elem)
  end.

(** ** Fixtures

    Concrete records for running the operations: a record is a byte string
    that decodes to itself, and a buffer starting with [xff] does not
    decode. *)

Definition demoUnmarshal (val : list Byte.byte) (m : list Byte.byte)
    : list Byte.byte * option error :=
  match val with
  | Byte.xff :: _ => (m, Some (DecodeError 1))
  | _ => (val, None)
  end.

(** In the fixtures every struct type implements [codec.ProtoMarshaler]
    through its pointer, and one interface type is [codec.ProtoMarshaler]
    itself. *)
Definition demoImplements (t : GoType) : bool :=
  match t with
  | PtrTo (StructType _) => true
  | InterfaceType _ => true
  | _ => false
  end.

(** ** Page requests

    [query.PageRequest] and [query.PageResponse] come from the SDK; only the
    fields [Paginate] reads or writes are kept. *)

Record PageRequest : Type := mkPageRequest {
  Key : bytes;
  Offset : Z;
  Limit : Z;
  CountTotal : bool
}.

Record PageResponse : Type := mkPageResponse {
  NextKey : bytes;
  Total : Z
}.

(** ** RDF helpers

    The interfaces [TermIterator], [TripleIterator] and [GraphBuilder] and
    the types [Term], [IRIOrBNode] and [Triple] are declared outside the
    sources at hand; they are taken with the methods and fields the code
    uses.  A method returns its result and the receiver after the call.
    Builders and the iterators wrapped by the projections are not nil. *)

Module Rdf.

(** The methods [TermIterator] and [TripleIterator] share. *)
Class Cursor (S : Type) : Type := {
  Next : S -> bool * S;
  Close : S -> S
}.

(** [T] stands for the Go interface type [Term]; [None] is its nil value. *)
Class TermIterator (T S : Type) `{Cursor S} : Type := {
  Term : S -> option T * S
}.

Arguments TermIterator T S {_}.

Class TripleIterator (T S : Type) `{Cursor S} : Type := {
  Subject : S -> option T * S;
  Predicate : S -> option T * S;
  Object : S -> option T * S
}.

Arguments TripleIterator T S {_}.

(** A call through a nil interface value panics; [defer it.Close()] is the
    first statement to do so. *)
Definition GetOneTerm (T S : Type) `{TermIterator T S} (it : option S)
    : outcome ((option T * option error) * S) :=
  match it with
  | None => Panics "invalid memory address or nil pointer dereference"
  | Some it0 =>
      let (more, it1) := Next it0 in
      if negb more then Returns ((None, None), Close it1)
      else
        let (val, it2) := Term it1 in
        let (more2, it3) := Next it2 in
        if more2 then
          Returns ((None, Some (Errorf "expected only one value")), Close it3)
        else
          Returns ((val, None), Close it3)
  end.

(** [type subIterator struct{ TripleIterator }] and its two siblings: the
    embedded iterator provides [Next] and [Close]. *)
Record subIterator (S : Type) : Type := mkSubIterator { sub_embedded : S }.
Record predIterator (S : Type) : Type := mkPredIterator { pred_embedded : S }.
Record objIterator (S : Type) : Type := mkObjIterator { obj_embedded : S }.

Definition SubjectIterator (S : Type) (iterator : S) : subIterator S :=
  mkSubIterator iterator.

Definition PredicateIterator (S : Type) (iterator : S) : predIterator S :=
  mkPredIterator iterator.

Definition ObjectIterator (S : Type) (iterator : S) : objIterator S :=
  mkObjIterator iterator.

#[global] Instance subIterator_Cursor (S : Type) `{Cursor S}
    : Cursor (subIterator S) :=
  {| Next := fun s =>
       let (more, i) := Next (sub_embedded s) in (more, mkSubIterator i);
     Close := fun s => mkSubIterator (Close (sub_embedded s)) |}.

#[global] Instance predIterator_Cursor (S : Type) `{Cursor S}
    : Cursor (predIterator S) :=
  {| Next := fun s =>
       let (more, i) := Next (pred_embedded s) in (more, mkPredIterator i);
     Close := fun s => mkPredIterator (Close (pred_embedded s)) |}.

#[global] Instance objIterator_Cursor (S : Type) `{Cursor S}
    : Cursor (objIterator S) :=
  {| Next := fun s =>
       let (more, i) := Next (obj_embedded s) in (more, mkObjIterator i);
     Close := fun s => mkObjIterator (Close (obj_embedded s)) |}.

(** [func (s subIterator) Term() Term { return s.Subject() }] *)
#[global] Instance subIterator_Term (T S : Type) `{TripleIterator T S}
    : TermIterator T (subIterator S) :=
  {| Term := fun s =>
       let (t, i) := Subject (sub_embedded s) in (t, mkSubIterator i) |}.

#[global] Instance predIterator_Term (T S : Type) `{TripleIterator T S}
    : TermIterator T (predIterator S) :=
  {| Term := fun s =>
       let (t, i) := Predicate (pred_embedded s) in (t, mkPredIterator i) |}.

#[global] Instance objIterator_Term (T S : Type) `{TripleIterator T S}
    : TermIterator T (objIterator S) :=
  {| Term := fun s =>
       let (t, i) := Object (obj_embedded s) in (t, mkObjIterator i) |}.

(** [N] stands for [IRIOrBNode] and [T] for [Term]. *)
Record Triple (N T : Type) : Type := mkTriple {
  t_Subject : N;
  t_Predicate : N;
  t_Object : T
}.

Class GraphBuilder (N T B : Type) : Type := {
  NewBNode : B -> N * B;
  AddTriple : B -> Triple N T -> B
}.

Record NodeBuilder (N B : Type) : Type := mkNodeBuilder {
  Builder : B;
  Node : N
}.

(** A Go map is ranged over in an order the runtime picks: [props] is the
    list of the entries of the map in the order of that visit. *)
Definition NewNodeBuilder (N T B : Type) `{GraphBuilder N T B} (builder : B)
    (props : list (N * list T)) : NodeBuilder N B :=
  let (bNode, builder1) := NewBNode builder in
  let builder2 :=
    fold_left
      (fun b entry =>
         fold_left
           (fun b' obj => AddTriple b' (mkTriple bNode (fst entry) obj))
           (snd entry) b)
      props builder1 in
  mkNodeBuilder builder2 bNode.

Definition AddProps (N T B : Type) `{GraphBuilder N T B}
    (builder : NodeBuilder N B) (props : list (N * list T))
    : NodeBuilder N B :=
  mkNodeBuilder
    (fold_left
       (fun b entry =>
          fold_left
            (fun b' obj =>
               AddTriple b' (mkTriple (Node builder) (fst entry) obj))
            (snd entry) b)
       props (Builder builder))
    (Node builder).

(** Instrumentation: the calls an iterator receives, and the triples a
    builder is given. *)
Inductive CursorCall : Type :=
| CallNext
| CallTerm
| CallClose.

Record Traced (S : Type) : Type := mkTraced {
  inner : S;
  calls : list CursorCall
}.

#[global] Instance Traced_Cursor (S : Type) `{Cursor S} : Cursor (Traced S) :=
  {| Next := fun t =>
       let (more, i) := Next (inner t) in
       (more, mkTraced i (calls t ++ [CallNext]));
     Close := fun t => mkTraced (Close (inner t)) (calls t ++ [CallClose]) |}.

#[global] Instance Traced_Term (T S : Type) `{TermIterator T S}
    : TermIterator T (Traced S) :=
  {| Term := fun t =>
       let (v, i) := Term (inner t) in
       (v, mkTraced i (calls t ++ [CallTerm])) |}.

Record Recording (N T B : Type) : Type := mkRecording {
  recorded_builder : B;
  added : list (Triple N T)
}.

#[global] Instance Recording_GraphBuilder (N T B : Type) `{GraphBuilder N T B}
    : GraphBuilder N T (Recording N T B) :=
  {| NewBNode := fun r =>
       let (n, b) := NewBNode (recorded_builder r) in
       (n, mkRecording b (added r));
     AddTriple := fun r t =>
       mkRecording (AddTriple (recorded_builder r) t) (added r ++ [t]) |}.

(** [Yields get s l]: stepping through the iterator from [s], reading each
    element once with [get], gives the elements [l] and then no more. *)
Inductive Yields (T S : Type) `{Cursor S} (get : S -> option T * S)
    : S -> list (option T) -> Prop :=
| Yields_nil : forall s, fst (Next s) = false -> Yields get s []
| Yields_cons : forall s l,
    fst (Next s) = true ->
    Yields get (snd (get (snd (Next s)))) l ->
    Yields get s (fst (get (snd (Next s))) :: l).

(** The triples [NewNodeBuilder] and [AddProps] hand to the builder for the
    node [node], in the order of the visit. *)
Definition triples_of (N T : Type) (node : N) (props : list (N * list T))
    : list (Triple N T) :=
  flat_map (fun entry => map (mkTriple node (fst entry)) (snd entry)) props.

(** A slice-backed iterator over terms: [Next] moves to the next element and
    [Term] reads the current one. *)
Record sliceIterator (T : Type) : Type := mkSliceIterator {
  current : option T;
  remaining : list (option T)
}.

#[global] Instance sliceIterator_Cursor (T : Type) : Cursor (sliceIterator T) :=
  {| Next := fun s =>
       match remaining s with
       | [] => (false, s)
       | x :: rest => (true, mkSliceIterator x rest)
       end;
     Close := fun s => s |}.

#[global] Instance sliceIterator_Term (T : Type)
    : TermIterator T (sliceIterator T) :=
  {| Term := fun s => (current s, s) |}.

(** The same over triples, kept as subject, predicate and object. *)
Record tripleSlice (T : Type) : Type := mkTripleSlice {
  current_triple : option T * option T * option T;
  remaining_triples : list (option T * option T * option T)
}.

#[global] Instance tripleSlice_Cursor (T : Type) : Cursor (tripleSlice T) :=
  {| Next := fun s =>
       match remaining_triples s with
       | [] => (false, s)
       | x :: rest => (true, mkTripleSlice x rest)
       end;
     Close := fun s => s |}.

#[global] Instance tripleSlice_Triple (T : Type)
    : TripleIterator T (tripleSlice T) :=
  {| Subject := fun s => (fst (fst (current_triple s)), s);
     Predicate := fun s => (snd (fst (current_triple s)), s);
     Object := fun s => (snd (current_triple s), s) |}.

(** A builder that numbers its blank nodes and keeps nothing else. *)
#[global] Instance counter_GraphBuilder (T : Type) : GraphBuilder nat T nat :=
  {| NewBNode := fun b => (b, Datatypes.S b);
     AddTriple := fun b _ => b |}.

End Rdf.

(** ** Simulation manager

    [AppModuleSimulation] is an interface: a module is given by its methods.
    The simulation state, the random generator, the store decoder registry
    and the element types of the slices come from the SDK and the
    application and are left abstract; a method that writes through a
    pointer or into a map returns the updated value.  The manager and its
    modules are not nil. *)

Module Simulation.

Section Manager.

Variables (SimulationState Rand StoreDecoderRegistry RegenApp : Type).
Variables (WeightedProposalContent ParamChange WeightedOperation : Type).

(** [make(sdk.StoreDecoderRegistry)] and [rand.New(rand.NewSource(seed))] *)
Variable emptyRegistry : StoreDecoderRegistry.
Variable NewRand : Z -> Rand.

Record AppModuleSimulation : Type := mkModule {
  GenerateGenesisState : SimulationState -> SimulationState;
  ProposalContents : SimulationState -> slice WeightedProposalContent;
  RandomizedParams : Rand -> slice ParamChange * Rand;
  RegisterStoreDecoder : StoreDecoderRegistry -> StoreDecoderRegistry;
  WeightedOperations : SimulationState -> slice WeightedOperation
}.

Record SimulationManager : Type := mkSimulationManager {
  Modules : slice AppModuleSimulation;
  StoreDecoders : StoreDecoderRegistry;
  App : option RegenApp
}.

(** [append(s, xs...)]: appending nothing to the nil slice leaves it nil. *)
Definition append_all (A : Type) (s xs : slice A) : slice A :=
  match s, elems xs with
  | None, [] => None
  | None, x :: l => Some (x :: l)
  | Some l0, l => Some (l0 ++ l)
  end.

Definition NewSimulationManager (app : option RegenApp)
    (modules : slice AppModuleSimulation) : SimulationManager :=
  mkSimulationManager modules emptyRegistry app.

Definition GetProposalContents (sm : SimulationManager)
    (simState : SimulationState) : slice WeightedProposalContent :=
  fold_left
    (fun wContents module => append_all wContents (ProposalContents module simState))
    (elems (Modules sm)) (Some []).

Definition RegisterStoreDecoders (sm : SimulationManager) : SimulationManager :=
  mkSimulationManager (Modules sm)
    (fold_left (fun registry module => RegisterStoreDecoder module registry)
       (elems (Modules sm)) (StoreDecoders sm))
    (App sm).

Definition GenerateGenesisStates (sm : SimulationManager)
    (simState : SimulationState) : SimulationState :=
  fold_left (fun st module => GenerateGenesisState module st)
    (elems (Modules sm)) simState.

Definition GenerateParamChanges (sm : SimulationManager) (seed : Z)
    : slice ParamChange :=
  fst (fold_left
         (fun acc module =>
            let (changes, r) := RandomizedParams module (snd acc) in
            (append_all (fst acc) changes, r))
         (elems (Modules sm)) (None, NewRand seed)).

(** The parameter changes a list of modules draws from a generator: each
    module's [RandomizedParams] is handed the generator as the module before
    it left it. *)
Fixpoint drawn_changes (modules : list AppModuleSimulation) (r : Rand)
    : list ParamChange :=
  match modules with
  | [] => []
  | module :: rest =>
      elems (fst (RandomizedParams module r)) ++
      drawn_changes rest (snd (RandomizedParams module r))
  end.

End Manager.

End Simulation.

(** ** Iterators *)

Section Orm.

(** The record type decoded into, i.e. what a [codec.ProtoMarshaler]
    destination points to, and its in-place [Unmarshal]. *)
Variable Model : Type.
Variable Unmarshal : list Byte.byte -> Model -> Model * option error.

(** What [LoadNext(dest)] hands back: the two Go results, the contents of
    [dest] after the call ([None] when [dest] was nil) and the receiver
    after the call. *)
Record LoadResult (S : Type) : Type := mkLoad {
  lr_key : RowID;
  lr_err : option error;
  lr_dest : option Model;
  lr_next : S
}.

(** [type Iterator interface { LoadNext(dest) (RowID, error); Close() error }] *)
Class Iterator (S : Type) : Type := {
  LoadNext : S -> option Model -> LoadResult S;
  Close : S -> option error * S
}.

(** [type IteratorFunc func(dest) (RowID, error)]: the function is called on
    [LoadNext]; [Close] always returns nil.  [S] is the environment of the
    closure. *)
Definition IteratorFunc (S : Type)
    (i : S -> option Model -> LoadResult S) : Iterator S :=
  {| LoadNext := fun s dest => i s dest;
     Close := fun s => (None, s) |}.

(** Environment captured by the closure of [NewSingleValueIterator]. *)
Record singleValue : Type := mkSingleValue {
  sv_rowID : RowID;
  sv_val : bytes;
  sv_closed : bool
}.

Definition singleValueFunc (s : singleValue) (dest : option Model)
    : LoadResult singleValue :=
  match dest with
  | None =>
      mkLoad None
        (Some (Wrap (Registered ErrArgument) "destination object must not be nil"))
        None s
  | Some m =>
      match sv_closed s, sv_val s with
      | false, Some val =>
          let (m', e) := Unmarshal val m in
          mkLoad (sv_rowID s) e (Some m')
            (mkSingleValue (sv_rowID s) (sv_val s) true)
      | _, _ => mkLoad None (Some (Registered ErrIteratorDone)) (Some m) s
      end
  end.

Definition NewSingleValueIterator (rowID : RowID) (val : bytes) : singleValue :=
  mkSingleValue rowID val false.

#[export] Instance singleValue_Iterator : Iterator singleValue :=
  IteratorFunc singleValueFunc.

(** Iterator that returns [ErrIteratorInvalid] only. *)
Definition invalidFunc (s : unit) (dest : option Model) : LoadResult unit :=
  mkLoad None (Some (Registered ErrIteratorInvalid)) dest s.

Definition NewInvalidIterator : unit := tt.

#[export] Instance invalid_Iterator : Iterator unit :=
  IteratorFunc invalidFunc.

(** [LimitedIterator] returns up to a defined maximum number of elements. *)
Record LimitedIterator (P : Type) : Type := mkLimited {
  remainingCount : Z;
  parentIterator : P
}.

Definition LimitIterator (P : Type) (parent : option P) (max : Z)
    : outcome (LimitedIterator P) :=
  if max <? 0 then Panics "quantity must not be negative"
  else
    match parent with
    | None => Panics "parent iterator must not be nil"
    | Some p => Returns (mkLimited max p)
    end.

Definition LimitedIterator_LoadNext (P : Type) `{Iterator P}
    (i : LimitedIterator P) (dest : option Model)
    : LoadResult (LimitedIterator P) :=
  if remainingCount i =? 0 then
    mkLoad None (Some (Registered ErrIteratorDone)) dest i
  else
    let remaining := wrap_int (remainingCount i - 1) in
    let r := LoadNext (parentIterator i) dest in
    mkLoad (lr_key r) (lr_err r) (lr_dest r) (mkLimited remaining (lr_next r)).

Definition LimitedIterator_Close (P : Type) `{Iterator P}
    (i : LimitedIterator P) : option error * LimitedIterator P :=
  let (e, p) := Close (parentIterator i) in
  (e, mkLimited (remainingCount i) p).

#[export] Instance Limited_Iterator (P : Type) `{Iterator P}
    : Iterator (LimitedIterator P) :=
  {| LoadNext := @LimitedIterator_LoadNext P _;
     Close := @LimitedIterator_Close P _ |}.

(** Instrumentation used to state which calls reach an iterator: the wrapper
    behaves as the wrapped iterator and records every call made on it. *)
Inductive Call : Type :=
| CallLoadNext
| CallClose.

Record Traced (S : Type) : Type := mkTraced {
  inner : S;
  calls : list Call
}.

#[export] Instance Traced_Iterator (S : Type) `{Iterator S}
    : Iterator (Traced S) :=
  {| LoadNext := fun t dest =>
       let r := LoadNext (inner t) dest in
       mkLoad (lr_key r) (lr_err r) (lr_dest r)
         (mkTraced (lr_next r) (calls t ++ [CallLoadNext]));
     Close := fun t =>
       let (e, s) := Close (inner t) in
       (e, mkTraced s (calls t ++ [CallClose])) |}.

(** [First] loads the first element and closes the iterator. *)
Definition First (S : Type) `{Iterator S} (it : option S) (dest : option Model)
    : (RowID * option error) * option Model * option S :=
  match it with
  | None =>
      ((None, Some (Wrap (Registered ErrArgument) "iterator must not be nil")),
       dest, None)
  | Some s =>
      let r := LoadNext s dest in
      let closed_it := Some (snd (Close (lr_next r))) in
      match lr_err r with
      | Some e => ((None, Some e), lr_dest r, closed_it)
      | None => ((lr_key r, None), lr_dest r, closed_it)
      end
  end.

(** ** Destinations *)

(** Which types implement [codec.ProtoMarshaler]: decided by the method sets
    of the program's types, which are not part of this file. *)
Variable Implements : GoType -> bool.

(** The zero value [reflect.New(elemType)] points to. *)
Variable zero : Model.

(** [type ModelSlicePtr interface{}]: an interface value is nil or carries a
    value of some dynamic type.  When that type is a pointer type, [target]
    is what the pointer points to: [None] for the nil pointer, otherwise the
    current contents of the variable pointed to, kept as a slice of records
    (it is only ever read or written when that variable is a slice). *)
Inductive ModelSlicePtr : Type :=
| NilInterface
| Boxed (t : GoType) (target : option (slice Model)).

(** [destRef.CanSet()] for [destRef = reflect.ValueOf(dest).Elem()]: a value
    reached through a non-nil pointer is addressable and was not obtained
    from an unexported field. *)
Definition CanSet (target : option (slice Model)) : bool :=
  match target with
  | Some _ => true
  | None => false
  end.

(** What [assertDest] leaves in its out-parameters on success. *)
Record destInfo : Type := mkDestInfo {
  elemType : GoType;
  destRef : slice Model;
  tmpSlice : slice Model
}.

(** [assertDest] checks that [dest] is not nil and a pointer to a slice, and
    that the slice elements implement [codec.ProtoMarshaler]. *)
Definition assertDest (dest : ModelSlicePtr) : destInfo + error :=
  match dest with
  | NilInterface =>
      inr (Wrap (Registered ErrArgument) "destination must not be nil")
  | Boxed tp target =>
      if negb (kind_eqb (kind_of tp) Ptr) then
        inr (Wrap (Registered ErrArgument) "destination must be a pointer to a slice")
      else
        match tp, target with
        | PtrTo (SliceOf elemType), Some contents =>
            if negb (CanSet target) then
              inr (Wrap (Registered ErrArgument) "destination not assignable")
            else if negb (Implements elemType)
                    && negb (Implements (PtrTo elemType)) then
              inr (Wrap (Registered ErrArgument)
                     (String.append "unsupported type :" (type_string elemType)))
            else
              inl (mkDestInfo elemType contents (Some []))
        | _, _ =>
            inr (Wrap (Registered ErrArgument) "destination must point to a slice")
        end
  end.

(** [destRef.Set(tmpSlice)]: the variable [dest] points to now holds the
    working slice. *)
Definition commit (dest : ModelSlicePtr) (contents : slice Model)
    : ModelSlicePtr :=
  match dest with
  | NilInterface => NilInterface
  | Boxed tp _ => Boxed tp (Some contents)
  end.

(** The dynamic type of [model] in the loops of [Paginate] and [ReadAll]:
    [elemType] itself when it is a pointer type, a pointer to it otherwise. *)
Definition model_type (elemType : GoType) : GoType :=
  if kind_eqb (kind_of elemType) Ptr then elemType else PtrTo elemType.

(** The element appended after a [LoadNext] on a freshly allocated record. *)
Definition loaded (S : Type) (r : LoadResult S) : Model :=
  match lr_dest r with
  | Some m => m
  | None => zero
  end.

(** ** Paginate *)

(** How the [for] loop of [Paginate] is left: [ex_err] is the error of a
    [return nil, err] inside the loop, [None] after a [break]. *)
Record loopExit (S : Type) : Type := mkExit {
  ex_err : option error;
  ex_destRef : slice Model;
  ex_count : Z;
  ex_nextKey : bytes;
  ex_it : S
}.

Section PaginateLoop.

Context {S : Type} `{Iterator S}.
Variable elemType : GoType.
Variables (offset end_ : Z) (key : bytes) (countTotal : bool).

(** The loop has no bound of its own; [fuel] bounds the number of iterations
    and [None] means the bound was reached. *)
Fixpoint paginate_loop (fuel : nat) (it : S) (destRef tmpSlice : slice Model)
    (count : Z) (nextKey : bytes) {struct fuel} : option (loopExit S) :=
  match fuel with
  | O => None
  | Datatypes.S fuel' =>
      if negb (Implements (model_type elemType)) then
        Some (mkExit
                (Some (Wrap (Registered ErrArgument)
                         (String.append (type_string elemType)
                            " should implement codec.ProtoMarshaler")))
                destRef count nextKey it)
      else
        let r := LoadNext it (Some zero) in
        if Is ErrIteratorDone (lr_err r) then
          Some (mkExit None tmpSlice count nextKey (lr_next r))
        else
          let count := wrap_uint64 (count + 1) in
          if count <=? offset then
            paginate_loop fuel' (lr_next r) destRef tmpSlice count nextKey
          else
            match lr_err r with
            | Some e => Some (mkExit (Some e) destRef count nextKey (lr_next r))
            | None =>
                if count <=? end_ then
                  paginate_loop fuel' (lr_next r) destRef
                    (append tmpSlice (loaded r)) count nextKey
                else if count =? wrap_uint64 (end_ + 1) then
                  let nextKey := lr_key r in
                  let destRef := tmpSlice in
                  if negb countTotal || negb (len key =? 0) then
                    Some (mkExit None destRef count nextKey (lr_next r))
                  else
                    paginate_loop fuel' (lr_next r) destRef tmpSlice count nextKey
                else
                  paginate_loop fuel' (lr_next r) destRef tmpSlice count nextKey
            end
  end.

End PaginateLoop.

(** What the caller of [Paginate] observes: the two results, the destination
    and the iterator after the call. *)
Record PaginateResult (S : Type) : Type := mkPaginateResult {
  pg_res : option PageResponse;
  pg_err : option error;
  pg_dest : ModelSlicePtr;
  pg_it : option S
}.

Definition Paginate (S : Type) `{Iterator S} (fuel : nat) (it : option S)
    (pageRequest : option PageRequest) (dest : ModelSlicePtr)
    : option (PaginateResult S) :=
  let pageRequest :=
    match pageRequest with
    | None => mkPageRequest None 0 0 false
    | Some r => r
    end in
  let offset := Offset pageRequest in
  let key := Key pageRequest in
  let limit := Limit pageRequest in
  let countTotal := CountTotal pageRequest in
  if (0 <? offset) && negb (is_nil key) then
    Some (mkPaginateResult None
            (Some (Errorf "invalid request, either offset or key is expected, got both"))
            dest it)
  else
    let limit := if Limit pageRequest =? 0 then 100 else limit in
    let countTotal := if Limit pageRequest =? 0 then true else countTotal in
    match it with
    | None =>
        Some (mkPaginateResult None
                (Some (Wrap (Registered ErrArgument) "iterator must not be nil"))
                dest None)
    | Some s =>
        (* from here on the deferred [it.Close()] runs at every return *)
        match assertDest dest with
        | inr e =>
            Some (mkPaginateResult None (Some e) dest (Some (snd (Close s))))
        | inl info =>
            let end_ := wrap_uint64 (offset + limit) in
            match paginate_loop (elemType info) offset end_ key countTotal
                    fuel s (destRef info) (tmpSlice info) 0 None with
            | None => None
            | Some ex =>
                let it' := Some (snd (Close (ex_it ex))) in
                let dest' := commit dest (ex_destRef ex) in
                match ex_err ex with
                | Some e => Some (mkPaginateResult None (Some e) dest' it')
                | None =>
                    let total :=
                      if countTotal && (len key =? 0) then ex_count ex else 0 in
                    Some (mkPaginateResult
                            (Some (mkPageResponse (ex_nextKey ex) total))
                            None dest' it')
                end
            end
        end
    end.

(** ** ReadAll *)

Record readExit (S : Type) : Type := mkReadExit {
  rx_rowIDs : slice RowID;
  rx_err : option error;
  rx_destRef : slice Model;
  rx_it : S
}.

(** The type assertion on [model.Interface()] is unchecked in [ReadAll]: it
    panics where [Paginate] returns an error. *)
Fixpoint readAll_loop (S : Type) `{Iterator S} (elemType : GoType)
    (fuel : nat) (it : S) (destRef tmpSlice : slice Model)
    (rowIDs : slice RowID) {struct fuel} : option (outcome (readExit S)) :=
  match fuel with
  | O => None
  | Datatypes.S fuel' =>
      if negb (Implements (model_type elemType)) then
        Some (Panics "interface conversion: missing method")
      else
        let r := LoadNext it (Some zero) in
        match lr_err r with
        | None =>
            readAll_loop elemType fuel' (lr_next r) destRef
              (append tmpSlice (loaded r)) (append rowIDs (lr_key r))
        | Some e =>
            if Is_err ErrIteratorDone e then
              Some (Returns (mkReadExit rowIDs None tmpSlice (lr_next r)))
            else
              Some (Returns (mkReadExit None (Some e) destRef (lr_next r)))
        end
  end.

Record ReadAllResult (S : Type) : Type := mkReadAllResult {
  ra_rowIDs : slice RowID;
  ra_err : option error;
  ra_dest : ModelSlicePtr;
  ra_it : option S
}.

(** [ReadAll] consumes all values of the iterator and stores them in a new
    slice at the passed [ModelSlicePtr]; the iterator is closed afterwards. *)
Definition ReadAll (S : Type) `{Iterator S} (fuel : nat) (it : option S)
    (dest : ModelSlicePtr) : option (outcome (ReadAllResult S)) :=
  match it with
  | None =>
      Some (Returns (mkReadAllResult None
                       (Some (Wrap (Registered ErrArgument) "iterator must not be nil"))
                       dest None))
  | Some s =>
      match assertDest dest with
      | inr e =>
          Some (Returns (mkReadAllResult None (Some e) dest
                           (Some (snd (Close s)))))
      | inl info =>
          match readAll_loop (elemType info) fuel s (destRef info)
                  (tmpSlice info) None with
          | None => None
          | Some (Panics msg) => Some (Panics msg)
          | Some (Returns ex) =>
              Some (Returns (mkReadAllResult (rx_rowIDs ex) (rx_err ex)
                               (commit dest (rx_destRef ex))
                               (Some (snd (Close (rx_it ex))))))
          end
      end
  end.

(** ** Driving an iterator *)

(** A scripted iterator replays a fixed list of [LoadNext] outcomes and then
    reports [ErrIteratorDone]; it stands for an iterator handed out by the
    storage layer. *)
Definition scripted : Type := list (RowID * option error * Model).

Definition scriptedFunc (s : scripted) (dest : option Model)
    : LoadResult scripted :=
  match s with
  | [] => mkLoad None (Some (Registered ErrIteratorDone)) dest s
  | (k, e, m) :: rest =>
      mkLoad k e (match dest with Some _ => Some m | None => None end) rest
  end.

#[export] Instance scripted_Iterator : Iterator scripted :=
  IteratorFunc scriptedFunc.

(** The results a scripted iterator gives when drained into fresh records. *)
Fixpoint scripted_results (s : scripted) : list (LoadResult scripted) :=
  match s with
  | [] => []
  | _ :: rest => LoadNext s (Some zero) :: scripted_results rest
  end.

Definition not_done (x : RowID * option error * Model) : bool :=
  negb (Is ErrIteratorDone (snd (fst x))).

Definition no_error (x : RowID * option error * Model) : bool :=
  match snd (fst x) with
  | None => true
  | Some _ => false
  end.

(** The receiver after a sequence of [LoadNext] calls, one per destination. *)
Fixpoint drive (S : Type) `{Iterator S} (s : S) (dests : list (option Model))
    : S :=
  match dests with
  | [] => s
  | d :: ds => drive (lr_next (LoadNext s d)) ds
  end.

(** What the caller sees of these calls, in order. *)
Fixpoint replies (S : Type) `{Iterator S} (s : S) (dests : list (option Model))
    : list (RowID * option error * option Model) :=
  match dests with
  | [] => []
  | d :: ds =>
      let r := LoadNext s d in
      (lr_key r, lr_err r, lr_dest r) :: replies (lr_next r) ds
  end.

Definition succeeded (reply : RowID * option error * option Model) : Prop :=
  snd (fst reply) = None.

(** [Steps s rs s']: loading into fresh records, as the retrieval operations
    do, takes the iterator from [s] to [s'] through the results [rs], none of
    which is [ErrIteratorDone]. *)
Inductive Steps (S : Type) `{Iterator S} : S -> list (LoadResult S) -> S -> Prop :=
| Steps_nil : forall s, Steps s [] s
| Steps_cons : forall s rs s',
    Is ErrIteratorDone (lr_err (LoadNext s (Some zero))) = false ->
    Steps (lr_next (LoadNext s (Some zero))) rs s' ->
    Steps s (LoadNext s (Some zero) :: rs) s'.

Definition exhausted (S : Type) `{Iterator S} (s : S) : Prop :=
  Is ErrIteratorDone (lr_err (LoadNext s (Some zero))) = true.

Definition loaded_ok (S : Type) (r : LoadResult S) : Prop := lr_err r = None.

(** Where the loop of [Paginate] stops reading, [rs] being the results read
    so far and [s'] the iterator they lead to: at the first
    [ErrIteratorDone], or at the record of count [end_ + 1] when no total is
    to be computed. *)
Definition scan_ends (S : Type) `{Iterator S} (countTotal : bool) (key : bytes)
    (end_ : Z) (rs : list (LoadResult S)) (s' : S) : Prop :=
  exhausted s' \/
  (negb countTotal || negb (len key =? 0) = true /\
   Z.of_nat (List.length rs) = end_ + 1).

(** Exhaustion is idempotent for destinations accepted by [ok]: once
    [LoadNext] has reported [ErrIteratorDone], so does every later call whose
    destination satisfies [ok], whatever calls were made in between. *)
Definition sticky_done (ok : option Model -> Prop) (S : Type) `{Iterator S}
    : Prop :=
  forall (s : S) (d : option Model),
    Is ErrIteratorDone (lr_err (LoadNext s d)) = true ->
    forall (ds : list (option Model)) (d' : option Model),
      ok d' ->
      Is ErrIteratorDone (lr_err (LoadNext (drive (lr_next (LoadNext s d)) ds) d')) = true.

Arguments sticky_done ok S {_}.

Definition non_nil (d : option Model) : Prop := d <> None.

Definition any_dest (d : option Model) : Prop := True.

(** The RowID list [ReadAll] returns after reading [rs]: nil when nothing was
    appended. *)
Definition rowIDs_of (S : Type) (rs : list (LoadResult S)) : slice RowID :=
  match rs with
  | [] => None
  | _ :: _ => Some (map (@lr_key S) rs)
  end.

(** An error that wraps [ErrArgument]. *)
Definition ArgumentError (A : Type) (x : A + error) : Prop :=
  exists e, x = inr e /\ Is_err ErrArgument e = true.

(** The single value has been handed out, or there never was one. *)
Definition spent (s : singleValue) : Prop :=
  sv_closed s = true \/ sv_val s = None.

(** * Properties *)

Unset Implicit Arguments.

(** ** The single-value iterator *)

Lemma singleValue_nil_dest (s : singleValue) :
  LoadNext s None =
  mkLoad None
    (Some (Wrap (Registered ErrArgument) "destination object must not be nil"))
    None s.
Proof. reflexivity. Qed.

Lemma singleValue_spent_done (s : singleValue) (m : Model) :
  spent s ->
  LoadNext s (Some m) = mkLoad None (Some (Registered ErrIteratorDone)) (Some m) s.
Proof.
  intros [Hc | Hv]; cbn; unfold singleValueFunc.
  - rewrite Hc. reflexivity.
  - rewrite Hv. destruct (sv_closed s); reflexivity.
Qed.

Lemma singleValue_spent_next (s : singleValue) (d : option Model) :
  spent s -> spent (lr_next (LoadNext s d)).
Proof.
  intros Hs. destruct d as [m|].
  - rewrite singleValue_spent_done by assumption. exact Hs.
  - rewrite singleValue_nil_dest. exact Hs.
Qed.

Lemma singleValue_spent_drive (ds : list (option Model)) :
  forall s : singleValue, spent s -> spent (drive s ds).
Proof.
  induction ds as [|d ds IH]; intros s Hs; cbn [drive].
  - exact Hs.
  - apply IH, singleValue_spent_next, Hs.
Qed.

Lemma singleValue_done_spent (s : singleValue) (d : option Model) :
  Is ErrIteratorDone (lr_err (LoadNext s d)) = true ->
  spent (lr_next (LoadNext s d)).
Proof.
  destruct d as [m|]; [|rewrite singleValue_nil_dest; discriminate].
  cbn. unfold singleValueFunc, spent.
  destruct (sv_closed s) eqn:Hc; [intros _; cbn; auto|].
  destruct (sv_val s) as [val|] eqn:Hv; [|intros _; cbn; auto].
  destruct (Unmarshal val m) as [m' e]. intros _. cbn. auto.
Qed.

Lemma singleValue_first (rowID : RowID) (b : list Byte.byte) (m : Model) :
  LoadNext (NewSingleValueIterator rowID (Some b)) (Some m) =
  mkLoad rowID (snd (Unmarshal b m)) (Some (fst (Unmarshal b m)))
    (mkSingleValue rowID (Some b) true).
Proof.
  cbn. unfold singleValueFunc. cbn.
  destruct (Unmarshal b m) as [m' e]. reflexivity.
Qed.

Lemma singleValue_sticky : sticky_done non_nil singleValue.
Proof.
  intros s d Hdone ds d' Hd'.
  destruct d' as [m'|]; [|exfalso; apply Hd'; reflexivity].
  rewrite singleValue_spent_done; [reflexivity|].
  apply singleValue_spent_drive, singleValue_done_spent, Hdone.
Qed.

(** ** The limited iterator *)

Section LimitedProperties.

Context {P : Type} `{Iterator P}.

Lemma limited_zero (i : LimitedIterator P) (d : option Model) :
  remainingCount i = 0 ->
  LoadNext i d = mkLoad None (Some (Registered ErrIteratorDone)) d i.
Proof.
  intros Hz. cbn. unfold LimitedIterator_LoadNext. rewrite Hz. reflexivity.
Qed.

Lemma limited_delegates (i : LimitedIterator P) (d : option Model) :
  remainingCount i <> 0 ->
  LoadNext i d =
  let r := LoadNext (parentIterator i) d in
  mkLoad (lr_key r) (lr_err r) (lr_dest r)
    (mkLimited (wrap_int (remainingCount i - 1)) (lr_next r)).
Proof.
  intros Hnz. cbn. unfold LimitedIterator_LoadNext.
  destruct (Z.eqb_spec (remainingCount i) 0); [contradiction|reflexivity].
Qed.

Lemma limited_zero_drive (ds : list (option Model)) :
  forall i : LimitedIterator P, remainingCount i = 0 -> drive i ds = i.
Proof.
  induction ds as [|d ds IH]; intros i Hz; cbn [drive]; [reflexivity|].
  rewrite limited_zero by assumption. cbn. apply IH, Hz.
Qed.

Lemma limited_drive_parent (ds : list (option Model)) :
  forall i : LimitedIterator P,
    exists ds', parentIterator (drive i ds) = drive (parentIterator i) ds'.
Proof.
  induction ds as [|d ds IH]; intros i; cbn [drive].
  - exists []. reflexivity.
  - destruct (Z.eq_dec (remainingCount i) 0) as [Hz|Hnz].
    + rewrite limited_zero by assumption. cbn.
      rewrite limited_zero_drive by assumption. exists []. reflexivity.
    + rewrite limited_delegates by assumption. cbn.
      destruct (IH (mkLimited (wrap_int (remainingCount i - 1))
                      (lr_next (LoadNext (parentIterator i) d)))) as [ds' Hds'].
      exists (d :: ds'). cbn [drive]. exact Hds'.
Qed.

Lemma limited_sticky (ok : option Model -> Prop) :
  sticky_done ok P -> sticky_done ok (LimitedIterator P).
Proof.
  intros Hparent i d Hdone ds d' Hok.
  destruct (Z.eq_dec (remainingCount i) 0) as [Hz|Hnz].
  - rewrite (limited_zero i d Hz). cbn [lr_next].
    rewrite limited_zero_drive by assumption.
    rewrite (limited_zero i d' Hz). reflexivity.
  - rewrite (limited_delegates i d Hnz) in Hdone |- *.
    cbn [lr_next lr_err] in Hdone |- *.
    set (i1 := mkLimited _ _).
    destruct (Z.eq_dec (remainingCount (drive i1 ds)) 0) as [Hz'|Hnz'].
    + rewrite limited_zero by assumption. reflexivity.
    + rewrite limited_delegates by assumption. cbn [lr_err].
      destruct (limited_drive_parent ds i1) as [ds' Hds'].
      rewrite Hds'. subst i1. cbn [parentIterator].
      apply Hparent; assumption.
Qed.

Lemma limited_close (i : LimitedIterator P) :
  Close i =
  (fst (Close (parentIterator i)),
   mkLimited (remainingCount i) (snd (Close (parentIterator i)))).
Proof.
  change (Close i) with (LimitedIterator_Close i).
  unfold LimitedIterator_Close.
  destruct (Close (parentIterator i)) as [e p]. reflexivity.
Qed.

Lemma wrap_int_small (z : Z) :
  - 2 ^ 63 <= z <= 2 ^ 63 - 1 -> wrap_int z = z.
Proof.
  intros Hz. unfold wrap_int.
  rewrite Z.mod_small by lia. lia.
Qed.

Lemma limited_within_budget (ds : list (option Model)) :
  forall (c : Z) (p : P),
    Z.of_nat (List.length ds) <= c <= 2 ^ 63 - 1 ->
    replies (mkLimited c p) ds = replies p ds /\
    drive (mkLimited c p) ds =
      mkLimited (c - Z.of_nat (List.length ds)) (drive p ds).
Proof.
  induction ds as [|d ds IH]; intros c p Hc; cbn [replies drive List.length].
  - split; [reflexivity|]. f_equal. cbn. lia.
  - cbn [List.length] in Hc.
    rewrite limited_delegates by (cbn; lia).
    cbn [lr_key lr_err lr_dest lr_next remainingCount parentIterator].
    rewrite wrap_int_small by lia.
    destruct (IH (c - 1) (lr_next (LoadNext p d))) as [IH1 IH2]; [lia|].
    rewrite IH1, IH2. split; [reflexivity|]. f_equal. lia.
Qed.

End LimitedProperties.

Lemma traced_drive_calls {S : Type} `{Iterator S} (ds : list (option Model)) :
  forall t : Traced S,
    calls (drive t ds) = calls t ++ repeat CallLoadNext (List.length ds).
Proof.
  induction ds as [|d ds IH]; intros t; cbn [drive List.length repeat].
  - rewrite app_nil_r. reflexivity.
  - rewrite IH. cbn. rewrite <- app_assoc. reflexivity.
Qed.


(** ** The provided iterators: claims *)

(** C4 (amended).  A single-value iterator built from a RowID and a non-nil
    buffer [b], empty or not, answers its first [LoadNext] on a non-nil
    destination with that RowID and with the outcome of decoding [b] into the
    destination, and every later [LoadNext] on a non-nil destination with
    [ErrIteratorDone], whatever calls were made in between.  Built from the
    nil buffer it answers the first [LoadNext] with [ErrIteratorDone].  In
    any state a nil destination gets an error wrapping [ErrArgument] and
    leaves the iterator as it was. *)
Theorem single_value_iterator_spec
    (rowID : RowID) (b : list Byte.byte) (m m' : Model)
    (ds : list (option Model)) (s : singleValue) :
  let r := LoadNext (NewSingleValueIterator rowID (Some b)) (Some m) in
  (lr_key r = rowID /\
   lr_err r = snd (Unmarshal b m) /\
   lr_dest r = Some (fst (Unmarshal b m))) /\
  lr_err (LoadNext (drive (lr_next r) ds) (Some m')) =
    Some (Registered ErrIteratorDone) /\
  lr_err (LoadNext (NewSingleValueIterator rowID None) (Some m)) =
    Some (Registered ErrIteratorDone) /\
  (Is ErrArgument (lr_err (LoadNext s None)) = true /\
   lr_key (LoadNext s None) = None /\
   lr_next (LoadNext s None) = s).
Proof.
  intros r. subst r. rewrite singleValue_first. cbn [lr_key lr_err lr_dest lr_next].
  split; [auto|].
  split.
  { rewrite singleValue_spent_done; [reflexivity|].
    apply singleValue_spent_drive. left. reflexivity. }
  split.
  { rewrite singleValue_spent_done; [reflexivity|]. right. reflexivity. }
  rewrite singleValue_nil_dest. auto.
Qed.

(** C9 (amended).  Exhaustion is idempotent for non-nil destinations.  Once
    the single-value iterator has reported [ErrIteratorDone], every later
    [LoadNext] on a non-nil destination reports it too.  A [LimitedIterator]
    over a parent for which exhaustion is idempotent (for the destinations
    accepted by [ok], in particular for the non-nil ones or for all of them)
    has the same property. *)
Theorem exhaustion_is_idempotent :
  sticky_done non_nil singleValue /\
  (forall (ok : option Model -> Prop) (P : Type) (H : Iterator P),
      sticky_done ok P -> sticky_done ok (LimitedIterator P)).
Proof.
  split.
  - exact singleValue_sticky.
  - intros ok P H. apply limited_sticky.
Qed.

(** C3 (amended).  For [0 <= max] and a parent whose first [max] calls to
    [LoadNext] succeed, [LimitIterator(parent, max)] answers these calls as
    the parent does, so it yields exactly [max] records; after [k] of them
    its remaining count is [max - k]; the parent has then been called exactly
    [max] times, and every further [LoadNext] reports [ErrIteratorDone] and
    leaves the iterator, hence the parent, as it was.  With [max = 0] this
    is the very first call.  The remaining count is decremented by every
    [LoadNext] that is passed on to the parent, whether the parent succeeds
    or not.  [Close] closes the parent and returns its error. *)
Theorem limited_iterator_spec
    (P : Type) (H : Iterator P) (parent : Traced P) (max : Z)
    (ds : list (option Model)) :
  0 <= max <= 2 ^ 63 - 1 ->
  Z.of_nat (List.length ds) = max ->
  Forall succeeded (replies parent ds) ->
  exists i : LimitedIterator (Traced P),
    LimitIterator (Some parent) max = Returns i /\
    replies i ds = replies parent ds /\
    Forall succeeded (replies i ds) /\
    (forall k : nat,
        (k <= List.length ds)%nat ->
        remainingCount (drive i (firstn k ds)) = max - Z.of_nat k) /\
    calls (parentIterator (drive i ds)) =
      calls parent ++ repeat CallLoadNext (List.length ds) /\
    (forall d : option Model,
        LoadNext (drive i ds) d =
        mkLoad None (Some (Registered ErrIteratorDone)) d (drive i ds)) /\
    (forall (j : LimitedIterator (Traced P)) (d : option Model),
        remainingCount j <> 0 ->
        lr_err (LoadNext j d) = lr_err (LoadNext (parentIterator j) d) /\
        remainingCount (lr_next (LoadNext j d)) =
          wrap_int (remainingCount j - 1)) /\
    Close i =
      (fst (Close parent), mkLimited (remainingCount i) (snd (Close parent))).
Proof.
  intros Hmax Hlen Hok.
  exists (mkLimited max parent).
  destruct (limited_within_budget ds max parent) as [Hrep Hdrv]; [lia|].
  split.
  { unfold LimitIterator. destruct (Z.ltb_spec max 0); [lia|reflexivity]. }
  split; [exact Hrep|].
  split; [rewrite Hrep; exact Hok|].
  split.
  { intros k Hk.
    destruct (limited_within_budget (firstn k ds) max parent) as [_ Hk'].
    - rewrite length_firstn. lia.
    - rewrite Hk'. cbn [remainingCount]. rewrite length_firstn. lia. }
  split.
  { rewrite Hdrv. cbn [parentIterator]. apply traced_drive_calls. }
  split.
  { intros d. apply limited_zero. rewrite Hdrv. cbn [remainingCount]. lia. }
  split.
  { intros j d Hj. rewrite (limited_delegates j d Hj). cbn. split; reflexivity. }
  apply (limited_close (mkLimited max parent)).
Qed.

(** ** Destination validation *)

Lemma assertDest_inl (dest : ModelSlicePtr) (info : destInfo) :
  assertDest dest = inl info ->
  exists contents,
    dest = Boxed (PtrTo (SliceOf (elemType info))) (Some contents) /\
    info = mkDestInfo (elemType info) contents (Some []) /\
    (Implements (elemType info) = true \/
     Implements (PtrTo (elemType info)) = true).
Proof.
  unfold assertDest.
  destruct dest as [|tp target]; [discriminate|].
  destruct tp as [n|n| |[n|n| |e|e]|e]; cbn; try discriminate;
    destruct target as [contents|]; cbn; try discriminate.
  destruct (Implements e) eqn:He; cbn.
  - intros [= <-]. exists contents. cbn. auto.
  - destruct (Implements (PtrTo e)) eqn:Hp; cbn; [|discriminate].
    intros [= <-]. exists contents. cbn. auto.
Qed.

Lemma assertDest_inr (dest : ModelSlicePtr) (e : error) :
  assertDest dest = inr e -> Is_err ErrArgument e = true.
Proof.
  unfold assertDest.
  destruct dest as [|tp target]; [intros [= <-]; reflexivity|].
  destruct (negb (kind_eqb (kind_of tp) Ptr)); [intros [= <-]; reflexivity|].
  destruct tp as [n|n| |[n|n| |t|t]|t]; try (intros [= <-]; reflexivity);
    destruct target as [contents|]; try (intros [= <-]; reflexivity).
  cbn [CanSet negb].
  destruct (negb (Implements t) && negb (Implements (PtrTo t)));
    [intros [= <-]; reflexivity|discriminate].
Qed.

Lemma commit_destRef (dest : ModelSlicePtr) (info : destInfo) :
  assertDest dest = inl info -> commit dest (destRef info) = dest.
Proof.
  intros Hd. destruct (assertDest_inl _ _ Hd) as (contents & -> & -> & _).
  reflexivity.
Qed.

(** C8.  [assertDest] fails with an error wrapping [ErrArgument] on a nil
    destination, on a destination that is not a pointer, on a pointer to
    something that is not a slice, and on a pointer to a slice whose element
    type does not implement [codec.ProtoMarshaler], neither itself nor as a
    pointer to it.  On a pointer to any other slice it succeeds with the
    element type of the slice and an empty, non-nil working slice; it never
    fails with anything but an [ErrArgument]. *)
Theorem assertDest_spec :
  ArgumentError (assertDest NilInterface) /\
  (forall (t : GoType) (target : option (slice Model)),
      kind_of t <> Ptr -> ArgumentError (assertDest (Boxed t target))) /\
  (forall (t : GoType) (target : option (slice Model)),
      kind_of t <> Slice ->
      ArgumentError (assertDest (Boxed (PtrTo t) target))) /\
  (forall (e : GoType) (target : option (slice Model)),
      Implements e = false ->
      Implements (PtrTo e) = false ->
      ArgumentError (assertDest (Boxed (PtrTo (SliceOf e)) target))) /\
  (forall (e : GoType) (contents : slice Model),
      Implements e = true \/ Implements (PtrTo e) = true ->
      assertDest (Boxed (PtrTo (SliceOf e)) (Some contents)) =
      inl (mkDestInfo e contents (Some []))) /\
  (forall dest : ModelSlicePtr,
      (exists info, assertDest dest = inl info) \/
      ArgumentError (assertDest dest)).
Proof.
  assert (Hany : forall dest : ModelSlicePtr,
             (exists info, assertDest dest = inl info) \/
             ArgumentError (assertDest dest)).
  { intros dest. destruct (assertDest dest) as [info|e] eqn:Hd.
    - left. exists info. reflexivity.
    - right. exists e. split; [reflexivity|]. eapply assertDest_inr, Hd. }
  assert (Hfail : forall dest : ModelSlicePtr,
             (forall info, assertDest dest <> inl info) ->
             ArgumentError (assertDest dest)).
  { intros dest Hno. destruct (Hany dest) as [[info Hi]|Ha]; [|exact Ha].
    exfalso. exact (Hno info Hi). }
  split; [apply Hfail; discriminate|].
  split.
  { intros t target Hk. apply Hfail. intros info Hi.
    destruct (assertDest_inl _ _ Hi) as (c & [= -> _] & _). apply Hk. reflexivity. }
  split.
  { intros t target Hk. apply Hfail. intros info Hi.
    destruct (assertDest_inl _ _ Hi) as (c & [= -> _] & _). apply Hk. reflexivity. }
  split.
  { intros e target He Hp. apply Hfail. intros info Hi.
    destruct (assertDest_inl _ _ Hi) as (c & [= -> _] & _ & [Hi'|Hi']); congruence. }
  split; [|exact Hany].
  intros e contents Himpl. unfold assertDest. cbn.
  destruct Himpl as [-> | ->]; cbn; [reflexivity|].
  destruct (Implements e); reflexivity.
Qed.

(** ** ReadAll *)

Lemma exhausted_err {S : Type} `{Iterator S} (s : S) :
  exhausted s ->
  exists e, lr_err (LoadNext s (Some zero)) = Some e /\
            Is_err ErrIteratorDone e = true.
Proof.
  unfold exhausted. destruct (lr_err (LoadNext s (Some zero))) as [e|].
  - intros He. exists e. auto.
  - discriminate.
Qed.

Lemma fold_append_Some (A : Type) (l : list A) :
  forall acc : list A, fold_left append l (Some acc) = Some (acc ++ l).
Proof.
  induction l as [|x l IH]; intros acc; cbn.
  - rewrite app_nil_r. reflexivity.
  - rewrite IH, <- app_assoc. reflexivity.
Qed.

Lemma fold_append_None (A : Type) (l : list A) :
  fold_left append l None = match l with [] => None | _ :: _ => Some l end.
Proof.
  destruct l as [|x l]; cbn; [reflexivity|]. apply fold_append_Some.
Qed.

Section ReadAllProperties.

Context {S : Type} `{Iterator S}.
Variable et : GoType.
Hypothesis et_ok : Implements (model_type et) = true.

Lemma readAll_loop_steps (rs : list (LoadResult S)) (s s' : S) :
  Steps s rs s' ->
  Forall (@loaded_ok S) rs ->
  forall (fuel : nat) (dref tmp : slice Model) (ids : slice RowID),
    readAll_loop et (List.length rs + fuel) s dref tmp ids =
    readAll_loop et fuel s' dref
      (fold_left append (map (@loaded S) rs) tmp)
      (fold_left append (map (@lr_key S) rs) ids).
Proof.
  induction 1 as [s|s rs s' Hnd Hsteps IH]; intros Hok fuel dref tmp ids.
  - reflexivity.
  - inversion Hok as [|r rs' Hr Hrs]; subst.
    cbn [List.length Nat.add readAll_loop map fold_left].
    rewrite et_ok. cbn [negb]. unfold loaded_ok in Hr. rewrite Hr.
    apply IH, Hrs.
Qed.

Lemma readAll_loop_done (s : S) (fuel : nat) (dref tmp : slice Model)
    (ids : slice RowID) :
  exhausted s ->
  readAll_loop et (Datatypes.S fuel) s dref tmp ids =
  Some (Returns (mkReadExit ids None tmp (lr_next (LoadNext s (Some zero))))).
Proof.
  intros Hs. destruct (exhausted_err s Hs) as (e & He & Hdone).
  cbn [readAll_loop]. rewrite et_ok. cbn [negb]. rewrite He, Hdone. reflexivity.
Qed.

End ReadAllProperties.

Lemma readAll_loop_error {S : Type} `{Iterator S} (et : GoType) (fuel : nat) :
  forall (s : S) (dref tmp : slice Model) (ids : slice RowID) (ex : readExit S),
    readAll_loop et fuel s dref tmp ids = Some (Returns ex) ->
    rx_err ex <> None ->
    rx_destRef ex = dref.
Proof.
  induction fuel as [|fuel IH]; intros s dref tmp ids ex; cbn [readAll_loop];
    [discriminate|].
  destruct (negb (Implements (model_type et))); [discriminate|].
  destruct (lr_err (LoadNext s (Some zero))) as [e|].
  - destruct (Is_err ErrIteratorDone e); intros [= <-]; cbn; congruence.
  - apply IH.
Qed.

(** X22.  When [assertDest] accepts the destination and the record
    allocated for its element type implements [codec.ProtoMarshaler] (the
    element type is a record type or a pointer to one, not the interface
    itself), and the iterator yields the records [rs] and then reports
    [ErrIteratorDone], [ReadAll] returns no error, commits exactly the
    records read, in read order, as a non-nil slice, and returns their
    RowIDs in read order.  With no record at all the committed slice is
    empty but not nil and the RowID list is nil. *)
Theorem ReadAll_commits_on_done {S : Type} `{Iterator S}
    (s s' : S) (rs : list (LoadResult S)) (dest : ModelSlicePtr)
    (info : destInfo) (fuel : nat) :
  assertDest dest = inl info ->
  Implements (model_type (elemType info)) = true ->
  Steps s rs s' ->
  Forall (@loaded_ok S) rs ->
  exhausted s' ->
  (List.length rs < fuel)%nat ->
  ReadAll fuel (Some s) dest =
    Some (Returns
            (mkReadAllResult (rowIDs_of rs) None
               (commit dest (Some (map (@loaded S) rs)))
               (Some (snd (Close (lr_next (LoadNext s' (Some zero)))))))) /\
  (rs = [] ->
   ReadAll fuel (Some s) dest =
     Some (Returns
             (mkReadAllResult None None (commit dest (Some []))
                (Some (snd (Close (lr_next (LoadNext s (Some zero))))))))).
Proof.
  intros Hd Het Hsteps Hok Hdone Hfuel.
  assert (Hmain : ReadAll fuel (Some s) dest =
    Some (Returns
            (mkReadAllResult (rowIDs_of rs) None
               (commit dest (Some (map (@loaded S) rs)))
               (Some (snd (Close (lr_next (LoadNext s' (Some zero))))))))).
  { unfold ReadAll. rewrite Hd.
    destruct (assertDest_inl _ _ Hd) as (contents & _ & Hinfo & _).
    rewrite Hinfo. cbn [elemType destRef tmpSlice].
    replace fuel with (List.length rs + Datatypes.S (fuel - List.length rs - 1))%nat
      by lia.
    rewrite (readAll_loop_steps _ Het rs s s' Hsteps Hok).
    rewrite (readAll_loop_done _ Het s' _ _ _ _ Hdone).
    cbn [rx_rowIDs rx_err rx_destRef rx_it].
    rewrite fold_append_Some, fold_append_None. cbn [app].
    unfold rowIDs_of. destruct rs; reflexivity. }
  split; [exact Hmain|].
  intros ->. inversion Hsteps; subst. exact Hmain.
Qed.

(** ** Paginate: the loop *)

Lemma Steps_app {S : Type} `{Iterator S} (a b : list (LoadResult S)) :
  forall s s' : S,
    Steps s (a ++ b) s' -> exists mid, Steps s a mid /\ Steps mid b s'.
Proof.
  induction a as [|r a IH]; intros s s' Hs; cbn [app] in Hs.
  - exists s. split; [constructor|exact Hs].
  - inversion Hs as [|s0 rs0 s0' Hnd Hrest]; subst.
    destruct (IH _ _ Hrest) as (mid & Ha & Hb).
    exists mid. split; [constructor; assumption|exact Hb].
Qed.

Lemma wrap_uint64_small (z : Z) : 0 <= z < 2 ^ 64 -> wrap_uint64 z = z.
Proof. intros Hz. unfold wrap_uint64. apply Z.mod_small, Hz. Qed.

Lemma wrap_uint64_succ_le (z : Z) : 0 <= z -> wrap_uint64 (z + 1) <= z + 1.
Proof.
  intros Hz. unfold wrap_uint64. apply Z.mod_le; lia.
Qed.

Section PaginateProperties.

Context {S : Type} `{Iterator S}.
Variable et : GoType.
Variables (offset end_ : Z) (key : bytes) (ct : bool).
Hypothesis et_ok : Implements (model_type et) = true.

#[local] Abbreviation loop := (paginate_loop et offset end_ key ct).

Lemma loop_done (s : S) (fuel : nat) (dref tmp : slice Model) (c : Z)
    (nk : bytes) :
  exhausted s ->
  loop (Datatypes.S fuel) s dref tmp c nk =
  Some (mkExit None tmp c nk (lr_next (LoadNext s (Some zero)))).
Proof.
  intros Hs. cbn [paginate_loop]. rewrite et_ok. cbn [negb].
  unfold exhausted in Hs. rewrite Hs. reflexivity.
Qed.

(** Within the offset window a result is dropped whatever its error. *)
Lemma loop_skip_one (s : S) (fuel : nat) (dref tmp : slice Model) (c : Z)
    (nk : bytes) :
  Is ErrIteratorDone (lr_err (LoadNext s (Some zero))) = false ->
  0 <= c -> c + 1 <= offset -> offset < 2 ^ 64 ->
  loop (Datatypes.S fuel) s dref tmp c nk =
  loop fuel (lr_next (LoadNext s (Some zero))) dref tmp (c + 1) nk.
Proof.
  intros Hnd Hc Hoff Hmax. cbn [paginate_loop]. rewrite et_ok. cbn [negb].
  rewrite Hnd. rewrite wrap_uint64_small by lia.
  destruct (Z.leb_spec (c + 1) offset); [reflexivity|lia].
Qed.

Lemma loop_skip (rs : list (LoadResult S)) (s s' : S) :
  Steps s rs s' ->
  forall (fuel : nat) (dref tmp : slice Model) (c : Z) (nk : bytes),
    0 <= c -> c + Z.of_nat (List.length rs) <= offset -> offset < 2 ^ 64 ->
    loop (List.length rs + fuel) s dref tmp c nk =
    loop fuel s' dref tmp (c + Z.of_nat (List.length rs)) nk.
Proof.
  induction 1 as [s|s rs s' Hnd Hsteps IH]; intros fuel dref tmp c nk Hc Hoff Hmax.
  - cbn [List.length Nat.add]. f_equal. cbn. lia.
  - cbn [List.length] in Hoff |- *. cbn [Nat.add].
    rewrite loop_skip_one by (assumption || lia).
    rewrite IH by lia. f_equal. lia.
Qed.

Lemma loop_append (rs : list (LoadResult S)) (s s' : S) :
  Steps s rs s' ->
  Forall (@loaded_ok S) rs ->
  forall (fuel : nat) (dref tmp : slice Model) (c : Z) (nk : bytes),
    0 <= c -> offset <= c ->
    c + Z.of_nat (List.length rs) <= end_ -> end_ < 2 ^ 64 ->
    loop (List.length rs + fuel) s dref tmp c nk =
    loop fuel s' dref (fold_left append (map (@loaded S) rs) tmp)
      (c + Z.of_nat (List.length rs)) nk.
Proof.
  induction 1 as [s|s rs s' Hnd Hsteps IH];
    intros Hok fuel dref tmp c nk Hc Hoff Hend Hmax.
  - cbn [List.length Nat.add map fold_left]. f_equal. cbn. lia.
  - inversion Hok as [|r rs' Hr Hrs]; subst. unfold loaded_ok in Hr.
    cbn [List.length] in Hend |- *. cbn [Nat.add paginate_loop map fold_left].
    rewrite et_ok. cbn [negb]. rewrite Hnd.
    rewrite wrap_uint64_small by lia.
    destruct (Z.leb_spec (c + 1) offset); [lia|].
    rewrite Hr.
    destruct (Z.leb_spec (c + 1) end_); [|lia].
    rewrite IH by (assumption || lia). f_equal. lia.
Qed.

Lemma loop_boundary (s : S) (fuel : nat) (dref tmp : slice Model) (nk : bytes) :
  Is ErrIteratorDone (lr_err (LoadNext s (Some zero))) = false ->
  lr_err (LoadNext s (Some zero)) = None ->
  0 <= end_ -> offset <= end_ -> end_ + 1 < 2 ^ 64 ->
  loop (Datatypes.S fuel) s dref tmp end_ nk =
  if negb ct || negb (len key =? 0) then
    Some (mkExit None tmp (end_ + 1) (lr_key (LoadNext s (Some zero)))
            (lr_next (LoadNext s (Some zero))))
  else
    loop fuel (lr_next (LoadNext s (Some zero))) tmp tmp (end_ + 1)
      (lr_key (LoadNext s (Some zero))).
Proof.
  intros Hnd Hr Hend Hoff Hmax. cbn [paginate_loop]. rewrite et_ok. cbn [negb].
  rewrite Hnd. rewrite !wrap_uint64_small by lia.
  destruct (Z.leb_spec (end_ + 1) offset); [lia|].
  rewrite Hr.
  destruct (Z.leb_spec (end_ + 1) end_); [lia|].
  rewrite Z.eqb_refl. reflexivity.
Qed.

Lemma loop_count (rs : list (LoadResult S)) (s s' : S) :
  Steps s rs s' ->
  Forall (@loaded_ok S) rs ->
  forall (fuel : nat) (dref tmp : slice Model) (c : Z) (nk : bytes),
    0 <= end_ -> offset <= c -> end_ + 1 <= c ->
    c + Z.of_nat (List.length rs) < 2 ^ 64 ->
    loop (List.length rs + fuel) s dref tmp c nk =
    loop fuel s' dref tmp (c + Z.of_nat (List.length rs)) nk.
Proof.
  induction 1 as [s|s rs s' Hnd Hsteps IH];
    intros Hok fuel dref tmp c nk Hend Hoff Hpast Hmax.
  - cbn [List.length Nat.add]. f_equal. cbn. lia.
  - inversion Hok as [|r rs' Hr Hrs]; subst. unfold loaded_ok in Hr.
    cbn [List.length] in Hmax |- *. cbn [Nat.add paginate_loop].
    rewrite et_ok. cbn [negb]. rewrite Hnd.
    rewrite (wrap_uint64_small (c + 1)) by lia.
    destruct (Z.leb_spec (c + 1) offset); [lia|].
    rewrite Hr.
    destruct (Z.leb_spec (c + 1) end_); [lia|].
    pose proof (wrap_uint64_succ_le end_ Hend).
    destruct (Z.eqb_spec (c + 1) (wrap_uint64 (end_ + 1))); [lia|].
    rewrite IH by (assumption || lia). f_equal. lia.
Qed.

End PaginateProperties.

Lemma nth_skipn_cons {A : Type} (k : nat) :
  forall (l t : list A) (x d : A), skipn k l = x :: t -> nth k l d = x.
Proof.
  induction k as [|k IH]; intros l t x d Hl; destruct l as [|y l];
    cbn in Hl |- *; try discriminate.
  - congruence.
  - eapply IH, Hl.
Qed.

Lemma Steps_cons_inv {S : Type} `{Iterator S} (s s' : S)
    (r : LoadResult S) (rs : list (LoadResult S)) :
  Steps s (r :: rs) s' ->
  r = LoadNext s (Some zero) /\
  Is ErrIteratorDone (lr_err r) = false /\
  Steps (lr_next r) rs s'.
Proof. intros Hs. inversion Hs; subst. auto. Qed.

Lemma Steps_nil_inv {S : Type} `{Iterator S} (s s' : S) :
  Steps s [] s' -> s = s'.
Proof. intros Hs. inversion Hs. reflexivity. Qed.

(** The loop of [Paginate] run on an iterator that yields the results [rs],
    all successful past the offset window, up to the point where the scan
    ends. *)
Lemma paginate_loop_run {S : Type} `{Iterator S} (et : GoType)
    (offset limit : Z) (key : bytes) (ct : bool)
    (s s' : S) (rs : list (LoadResult S)) (fuel : nat) (dref : slice Model) :
  Implements (model_type et) = true ->
  0 <= offset -> 0 <= limit -> offset + limit < 2 ^ 64 ->
  Steps s rs s' ->
  scan_ends ct key (offset + limit) rs s' ->
  Forall (@loaded_ok S) (skipn (Z.to_nat offset) rs) ->
  Z.of_nat (List.length rs) < 2 ^ 64 ->
  (List.length rs < fuel)%nat ->
  exists (cnt : Z) (s'' : S),
    paginate_loop et offset (offset + limit) key ct fuel s dref (Some []) 0 None =
    Some (mkExit None
            (Some (map (@loaded S)
                     (firstn (Z.to_nat limit) (skipn (Z.to_nat offset) rs))))
            cnt
            (nth (Z.to_nat (offset + limit)) (map (@lr_key S) rs) None)
            s'') /\
    (ct && (len key =? 0) = true -> cnt = Z.of_nat (List.length rs)).
Proof.
  intros Het Hoff Hlim Hmax Hsteps Hstop Hok Hn Hfuel.
  assert (Hdone : Z.of_nat (List.length rs) <= offset + limit \/
                  negb ct || negb (len key =? 0) = false ->
                  exhausted s').
  { intros Hcase. destruct Hstop as [Hd|[Hflag Hlen']]; [exact Hd|].
    destruct Hcase; [lia|congruence]. }
  clear Hstop.
  set (o := Z.to_nat offset) in *. set (L := Z.to_nat limit).
  pose proof (firstn_skipn o rs) as Hsplit.
  set (a := firstn o rs) in *. set (rest := skipn o rs) in *.
  rewrite <- Hsplit in Hsteps.
  destruct (Steps_app _ _ _ _ Hsteps) as (mid1 & Ha & Hrest).
  assert (Hlen : List.length rs = (List.length a + List.length rest)%nat)
    by (rewrite <- Hsplit, length_app; reflexivity).
  destruct (Nat.le_gt_cases (List.length rs) o) as [Hshort|Hlong].
  - (* the iterator is exhausted within the offset window *)
    assert (Hr : rest = []) by (apply skipn_all2; exact Hshort).
    rewrite Hr in Hrest |- *. apply Steps_nil_inv in Hrest. subst mid1.
    rewrite Hr in Hlen. cbn [List.length] in Hlen.
    exists (Z.of_nat (List.length rs)), (lr_next (LoadNext s' (Some zero))).
    split; [|reflexivity].
    replace fuel with (List.length a + Datatypes.S (fuel - List.length a - 1))%nat
      by lia.
    rewrite (loop_skip _ _ _ _ _ Het a s s' Ha) by lia.
    assert (Hle : Z.of_nat (List.length rs) <= offset + limit) by lia.
    rewrite (loop_done _ _ _ _ _ Het s' _ _ _ _ _ (Hdone (or_introl Hle))).
    rewrite firstn_nil. cbn [map].
    rewrite nth_overflow by (rewrite length_map; lia).
    do 2 f_equal. lia.
  - assert (Hla : List.length a = o) by (apply firstn_length_le; lia).
    pose proof (firstn_skipn L rest) as Hsplit2.
    set (b := firstn L rest) in *. set (tl := skipn L rest) in *.
    rewrite <- Hsplit2 in Hrest, Hok.
    destruct (Steps_app _ _ _ _ Hrest) as (mid2 & Hb & Htl).
    apply Forall_app in Hok. destruct Hok as [Hokb Hoktl].
    assert (Hlr : List.length rest = (List.length b + List.length tl)%nat)
      by (rewrite <- Hsplit2, length_app; reflexivity).
    assert (Hlb : (List.length b <= L)%nat) by apply firstn_le_length.
    assert (Hstart :
      forall (k : nat),
        paginate_loop et offset (offset + limit) key ct
          (List.length a + (List.length b + k)) s dref (Some []) 0 None =
        paginate_loop et offset (offset + limit) key ct k mid2 dref
          (Some (map (@loaded S) b)) (offset + Z.of_nat (List.length b)) None).
    { intros k.
      rewrite (loop_skip _ _ _ _ _ Het a s mid1 Ha) by lia.
      rewrite (loop_append _ _ _ _ _ Het b mid1 mid2 Hb Hokb) by lia.
      rewrite fold_append_Some. cbn [app]. f_equal. lia. }
    destruct tl as [|r tl'] eqn:Htleq.
    + (* the iterator is exhausted within the limit window *)
      apply Steps_nil_inv in Htl. subst mid2.
      cbn [List.length] in Hlr.
      exists (Z.of_nat (List.length rs)), (lr_next (LoadNext s' (Some zero))).
      split; [|reflexivity].
      replace fuel with
        (List.length a + (List.length b + Datatypes.S (fuel - List.length rs - 1)))%nat
        by lia.
      rewrite Hstart.
      assert (Hle : Z.of_nat (List.length rs) <= offset + limit) by lia.
      rewrite (loop_done _ _ _ _ _ Het s' _ _ _ _ _ (Hdone (or_introl Hle))).
      rewrite nth_overflow by (rewrite length_map; lia).
      do 2 f_equal. lia.
    + (* a record lies past the limit window *)
      assert (HbL : List.length b = L).
      { apply firstn_length_le.
        assert (List.length (skipn L rest) = Datatypes.S (List.length tl'))
          by (fold tl; rewrite Htleq; reflexivity).
        rewrite length_skipn in *. lia. }
      cbn [List.length] in Hlr.
      destruct (Steps_cons_inv _ _ _ _ Htl) as (Hreq & Hnd & Htl').
      inversion Hoktl as [|r0 rs0 Hr Hoktl']; subst r0 rs0.
      unfold loaded_ok in Hr.
      assert (Hkey : nth (Z.to_nat (offset + limit)) (map (@lr_key S) rs) None
                     = lr_key r).
      { apply nth_skipn_cons with (t := map (@lr_key S) tl').
        rewrite skipn_map.
        replace (Z.to_nat (offset + limit)) with (L + o)%nat by lia.
        rewrite <- skipn_skipn. fold rest. fold tl. rewrite Htleq. reflexivity. }
      rewrite Hkey.
      assert (Hbound :
        forall k : nat,
          paginate_loop et offset (offset + limit) key ct
            (List.length a + (List.length b + Datatypes.S k)) s dref
            (Some []) 0 None =
          if negb ct || negb (len key =? 0) then
            Some (mkExit None (Some (map (@loaded S) b)) (offset + limit + 1)
                    (lr_key r) (lr_next r))
          else
            paginate_loop et offset (offset + limit) key ct k (lr_next r)
              (Some (map (@loaded S) b)) (Some (map (@loaded S) b))
              (offset + limit + 1) (lr_key r)).
      { intros k. rewrite Hstart.
        replace (offset + Z.of_nat (List.length b)) with (offset + limit) by lia.
        rewrite (loop_boundary _ _ _ _ _ Het mid2)
          by (rewrite <- ?Hreq; assumption || lia).
        rewrite <- Hreq. reflexivity. }
      destruct (negb ct || negb (len key =? 0)) eqn:Hflag.
      * exists (offset + limit + 1), (lr_next r).
        split.
        -- replace fuel with
             (List.length a + (List.length b + Datatypes.S (fuel - o - L - 1)))%nat
             by lia.
           rewrite Hbound. reflexivity.
        -- intros Hct. exfalso.
           destruct ct; destruct (len key =? 0); discriminate.
      * exists (Z.of_nat (List.length rs)), (lr_next (LoadNext s' (Some zero))).
        split; [|reflexivity].
        replace fuel with
          (List.length a +
           (List.length b +
            Datatypes.S (List.length tl' + Datatypes.S (fuel - List.length rs - 1))))%nat
          by lia.
        rewrite Hbound.
        rewrite (loop_count _ _ _ _ _ Het tl' _ _ Htl' Hoktl') by lia.
        rewrite (loop_done _ _ _ _ _ Het s' _ _ _ _ _ (Hdone (or_intror eq_refl))).
        do 2 f_equal. lia.
Qed.

(** ** Paginate: the operation *)

(** The request [Paginate] works with: the default request stands in for a
    nil one. *)
Lemma Paginate_run {S : Type} `{Iterator S} (s s' : S)
    (rs : list (LoadResult S)) (pageRequest : option PageRequest)
    (dest : ModelSlicePtr) (info : destInfo) (fuel : nat) :
  let req := match pageRequest with
             | None => mkPageRequest None 0 0 false
             | Some r => r
             end in
  let limit := if Limit req =? 0 then 100 else Limit req in
  let countTotal := if Limit req =? 0 then true else CountTotal req in
  assertDest dest = inl info ->
  Implements (model_type (elemType info)) = true ->
  0 <= Offset req -> 0 <= Limit req -> Offset req + limit < 2 ^ 64 ->
  (0 <? Offset req) && negb (is_nil (Key req)) = false ->
  Steps s rs s' ->
  scan_ends countTotal (Key req) (Offset req + limit) rs s' ->
  Forall (@loaded_ok S) (skipn (Z.to_nat (Offset req)) rs) ->
  Z.of_nat (List.length rs) < 2 ^ 64 ->
  (List.length rs < fuel)%nat ->
  exists s'' : S,
    Paginate fuel (Some s) pageRequest dest =
    Some (mkPaginateResult
            (Some (mkPageResponse
                     (nth (Z.to_nat (Offset req + limit)) (map (@lr_key S) rs) None)
                     (if countTotal && (len (Key req) =? 0)
                      then Z.of_nat (List.length rs) else 0)))
            None
            (commit dest
               (Some (map (@loaded S)
                        (firstn (Z.to_nat limit)
                           (skipn (Z.to_nat (Offset req)) rs)))))
            (Some (snd (Close s'')))).
Proof.
  intros req limit countTotal Hd Het Hoff Hlim Hmax Hshape Hsteps Hdone Hok Hn Hfuel.
  assert (Hlimit : 0 <= limit).
  { subst limit. destruct (Limit req =? 0); lia. }
  destruct (assertDest_inl _ _ Hd) as (contents & _ & Hinfo & _).
  destruct (paginate_loop_run (elemType info) (Offset req) limit (Key req)
              countTotal s s' rs fuel contents Het Hoff Hlimit Hmax Hsteps Hdone
              Hok Hn Hfuel) as (cnt & s'' & Hloop & Hcnt).
  exists s''. unfold Paginate. fold req. rewrite Hshape. rewrite Hd.
  fold limit. fold countTotal.
  rewrite wrap_uint64_small by lia.
  rewrite Hinfo. cbn [elemType destRef tmpSlice]. rewrite Hinfo in Hloop.
  cbn [elemType] in Hloop. rewrite Hloop.
  cbn [ex_err ex_it ex_destRef ex_nextKey ex_count].
  destruct (countTotal && (len (Key req) =? 0)) eqn:Hflag.
  - rewrite Hcnt by reflexivity. reflexivity.
  - reflexivity.
Qed.

(** C5.  On an iterator over exactly 250 records, [Paginate] with a nil page
    request returns no error, commits exactly the first 100 records to the
    destination, and returns a response whose [NextKey] is the RowID of the
    101st record and whose [Total] is 250.  The nil request is served as the
    request with offset 0, no key, limit 100 and [CountTotal] set. *)
Theorem Paginate_nil_request {S : Type} `{Iterator S} (s s' : S)
    (rs : list (LoadResult S)) (dest : ModelSlicePtr) (info : destInfo)
    (fuel : nat) :
  assertDest dest = inl info ->
  Implements (model_type (elemType info)) = true ->
  Steps s rs s' ->
  Forall (@loaded_ok S) rs ->
  exhausted s' ->
  List.length rs = 250%nat ->
  (250 < fuel)%nat ->
  (exists s'' : S,
      Paginate fuel (Some s) None dest =
      Some (mkPaginateResult
              (Some (mkPageResponse (nth 100 (map (@lr_key S) rs) None) 250))
              None
              (commit dest (Some (map (@loaded S) (firstn 100 rs))))
              (Some (snd (Close s''))))) /\
  List.length (firstn 100 rs) = 100%nat /\
  Paginate fuel (Some s) None dest =
    Paginate fuel (Some s) (Some (mkPageRequest None 0 100 true)) dest.
Proof.
  intros Hd Het Hsteps Hok Hdone Hlen Hfuel.
  split; [|split].
  - pose proof (Paginate_run s s' rs None dest info fuel) as Hrun.
    cbv zeta in Hrun. cbn [Limit Offset Key CountTotal] in Hrun.
    change (0 =? 0) with true in Hrun. cbv iota in Hrun.
    destruct Hrun as [s'' Hrun]; try assumption; try lia; try reflexivity;
      try (left; assumption).
    exists s''. rewrite Hrun, Hlen. reflexivity.
  - rewrite length_firstn. lia.
  - reflexivity.
Qed.


(** ** Errors and the destination *)

Lemma wrap_uint64_nonneg (z : Z) : 0 <= wrap_uint64 z.
Proof. unfold wrap_uint64. apply Z.mod_pos_bound. lia. Qed.

Section PaginateErrors.

Context {S : Type} `{Iterator S}.
Variable et : GoType.
Variables (offset end_ : Z) (key : bytes) (ct : bool).

#[local] Abbreviation loop := (paginate_loop et offset end_ key ct).

(** An error met before the loop has read past count [end + 1] finds the
    destination as the caller left it. *)
Lemma paginate_loop_error_early (fuel : nat) :
  forall (s : S) (dref tmp : slice Model) (c : Z) (nk : bytes) (ex : loopExit S),
    0 <= c -> c + Z.of_nat fuel <= end_ + 1 ->
    loop fuel s dref tmp c nk = Some ex ->
    ex_err ex <> None ->
    ex_destRef ex = dref.
Proof.
  induction fuel as [|fuel IH]; intros s dref tmp c nk ex Hc Hbudget;
    cbn [paginate_loop]; [discriminate|].
  destruct (negb (Implements (model_type et))); [intros [= <-]; reflexivity|].
  destruct (Is ErrIteratorDone (lr_err (LoadNext s (Some zero))));
    [intros [= <-]; cbn; congruence|].
  pose proof (wrap_uint64_nonneg (c + 1)) as Hlo.
  pose proof (wrap_uint64_succ_le c Hc) as Hhi.
  destruct (wrap_uint64 (c + 1) <=? offset); [apply IH; lia|].
  destruct (lr_err (LoadNext s (Some zero))) as [e|];
    [intros [= <-]; reflexivity|].
  destruct (Z.leb_spec (wrap_uint64 (c + 1)) end_) as [Hin|Hout]; [apply IH; lia|].
  destruct (wrap_uint64 (c + 1) =? wrap_uint64 (end_ + 1)); [|apply IH; lia].
  destruct (negb ct || negb (len key =? 0)); [intros [= <-]; cbn; congruence|].
  assert (fuel = 0%nat) as -> by lia. discriminate.
Qed.

(** When the scan stops at count [end + 1], no error follows a commit. *)
Lemma paginate_loop_error_break (fuel : nat) :
  negb ct || negb (len key =? 0) = true ->
  forall (s : S) (dref tmp : slice Model) (c : Z) (nk : bytes) (ex : loopExit S),
    loop fuel s dref tmp c nk = Some ex ->
    ex_err ex <> None ->
    ex_destRef ex = dref.
Proof.
  intros Hflag.
  induction fuel as [|fuel IH]; intros s dref tmp c nk ex;
    cbn [paginate_loop]; [discriminate|].
  destruct (negb (Implements (model_type et))); [intros [= <-]; reflexivity|].
  destruct (Is ErrIteratorDone (lr_err (LoadNext s (Some zero))));
    [intros [= <-]; cbn; congruence|].
  destruct (wrap_uint64 (c + 1) <=? offset); [apply IH|].
  destruct (lr_err (LoadNext s (Some zero))) as [e|];
    [intros [= <-]; reflexivity|].
  destruct (wrap_uint64 (c + 1) <=? end_); [apply IH|].
  destruct (wrap_uint64 (c + 1) =? wrap_uint64 (end_ + 1)); [|apply IH].
  rewrite Hflag. intros [= <-]; cbn; congruence.
Qed.

End PaginateErrors.

(** A request with both an offset and a key is refused before the iterator
    is looked at: the iterator comes back as it was passed. *)
Lemma Paginate_request_shape {S : Type} `{Iterator S} (fuel : nat)
    (it : option S) (req : PageRequest) (dest : ModelSlicePtr) :
  0 < Offset req -> Key req <> None ->
  Paginate fuel it (Some req) dest =
  Some (mkPaginateResult None
          (Some (Errorf "invalid request, either offset or key is expected, got both"))
          dest it).
Proof.
  intros Hoff Hkey. unfold Paginate.
  destruct (Z.ltb_spec 0 (Offset req)); [|lia].
  destruct (Key req); [reflexivity|congruence].
Qed.

(** C10 (amended).  [ReadAll] assigns to the destination only when the
    iterator reports [ErrIteratorDone]: whenever it returns an error, the
    destination is as it was before the call.  [Paginate] assigns to the
    destination when the record at count [end + 1] has been read and when
    the iterator reports [ErrIteratorDone]: whenever it returns an error
    while [CountTotal] (after defaulting) is off or a key is given, or
    within the first [end + 1] loads, the bound [fuel] on the number of
    loads, the destination is as it was before the call. *)
Theorem destination_untouched_on_error {S : Type} `{Iterator S}
    (it : option S) (dest : ModelSlicePtr) (fuel : nat) :
  (forall r : ReadAllResult S,
      ReadAll fuel it dest = Some (Returns r) ->
      ra_err r <> None ->
      ra_dest r = dest) /\
  (forall (pageRequest : option PageRequest) (r : PaginateResult S),
      let req := match pageRequest with
                 | None => mkPageRequest None 0 0 false
                 | Some q => q
                 end in
      let limit := if Limit req =? 0 then 100 else Limit req in
      let countTotal := if Limit req =? 0 then true else CountTotal req in
      Paginate fuel it pageRequest dest = Some r ->
      pg_err r <> None ->
      countTotal = false \/ len (Key req) <> 0 \/
        Z.of_nat fuel <= wrap_uint64 (Offset req + limit) + 1 ->
      pg_dest r = dest).
Proof.
  split.
  - intros r. unfold ReadAll.
    destruct it as [s|]; [|intros [= <-]; reflexivity].
    destruct (assertDest dest) as [info|e] eqn:Hd; [|intros [= <-]; reflexivity].
    destruct (readAll_loop (elemType info) fuel s (destRef info) (tmpSlice info) None)
      as [[ex|msg]|] eqn:Hloop; try discriminate.
    intros [= <-]. cbn [ra_err ra_dest]. intros Herr.
    rewrite (readAll_loop_error _ _ _ _ _ _ _ Hloop Herr).
    apply commit_destRef, Hd.
  - intros pageRequest r req limit countTotal. unfold Paginate. fold req.
    destruct ((0 <? Offset req) && negb (is_nil (Key req)));
      [intros [= <-]; reflexivity|].
    destruct it as [s|]; [|intros [= <-]; reflexivity].
    destruct (assertDest dest) as [info|e] eqn:Hd; [|intros [= <-]; reflexivity].
    fold limit. fold countTotal.
    destruct (paginate_loop (elemType info) (Offset req)
                (wrap_uint64 (Offset req + limit)) (Key req) countTotal fuel s
                (destRef info) (tmpSlice info) 0 None) as [ex|] eqn:Hloop;
      [|discriminate].
    destruct (ex_err ex) as [e|] eqn:Herr; [|intros [= <-]; cbn; congruence].
    intros [= <-]. cbn [pg_err pg_dest]. intros _ Hcase.
    assert (Hkeep : ex_destRef ex = destRef info).
    { destruct Hcase as [Hct | [Hkey | Hearly]].
      - eapply paginate_loop_error_break; [|exact Hloop|congruence].
        rewrite Hct. reflexivity.
      - eapply paginate_loop_error_break; [|exact Hloop|congruence].
        destruct (Z.eqb_spec (len (Key req)) 0); [contradiction|].
        apply orb_true_r.
      - eapply paginate_loop_error_early; [| |exact Hloop|congruence]; lia. }
    rewrite Hkeep. apply commit_destRef, Hd.
Qed.

(** ** Scripted iterators *)

Lemma scripted_Steps (s : scripted) :
  forallb not_done s = true -> Steps s (scripted_results s) [].
Proof.
  induction s as [|[[k e] m] s IH]; cbn [forallb scripted_results].
  - intros _. constructor.
  - intros Hnd. apply andb_prop in Hnd. destruct Hnd as [Hx Hs].
    constructor.
    + unfold not_done in Hx. cbn in Hx |- *. apply negb_true_iff, Hx.
    + apply IH, Hs.
Qed.

Lemma scripted_exhausted : exhausted (@nil (RowID * option error * Model)).
Proof. reflexivity. Qed.

Lemma scripted_loaded_ok (s : scripted) :
  forallb no_error s = true -> Forall (@loaded_ok scripted) (scripted_results s).
Proof.
  induction s as [|[[k e] m] s IH]; cbn [forallb scripted_results].
  - intros _. constructor.
  - intros Hok. apply andb_prop in Hok. destruct Hok as [Hx Hs].
    constructor; [|apply IH, Hs].
    unfold no_error in Hx. cbn in Hx. unfold loaded_ok. cbn.
    destruct e; [discriminate|reflexivity].
Qed.

(** * Further properties of the iterators and retrieval operations *)

(** ** Instrumented iterators *)

Lemma traced_LoadNext {S : Type} `{Iterator S} (t : Traced S)
    (d : option Model) :
  LoadNext t d =
  mkLoad (lr_key (LoadNext (inner t) d)) (lr_err (LoadNext (inner t) d))
    (lr_dest (LoadNext (inner t) d))
    (mkTraced (lr_next (LoadNext (inner t) d)) (calls t ++ [CallLoadNext])).
Proof. reflexivity. Qed.

Lemma traced_Close {S : Type} `{Iterator S} (t : Traced S) :
  Close t =
  (fst (Close (inner t)),
   mkTraced (snd (Close (inner t))) (calls t ++ [CallClose])).
Proof.
  change (Close t) with
    (let (e, s) := Close (inner t) in (e, mkTraced s (calls t ++ [CallClose]))).
  destruct (Close (inner t)) as [e s]. reflexivity.
Qed.

Lemma loads_snoc (l : list Call) (n : nat) :
  (l ++ [CallLoadNext]) ++ repeat CallLoadNext n =
  l ++ repeat CallLoadNext (Datatypes.S n).
Proof. rewrite <- app_assoc. reflexivity. Qed.

(** ** First *)

(** X1.  [First] on a non-nil iterator makes exactly one [LoadNext] and then
    exactly one [Close], whether the load succeeds or not; it returns the
    error of the load unchanged, with a nil RowID even when the load handed
    one back, and the RowID of the load when there is no error.  On a nil
    iterator it returns an error wrapping [ErrArgument] and leaves the
    destination alone. *)
Theorem First_loads_once_then_closes {S : Type} `{Iterator S}
    (t : Traced S) (dest : option Model) :
  let r := LoadNext (inner t) dest in
  First (Some t) dest =
    (match lr_err r with
     | Some e => (None, Some e)
     | None => (lr_key r, None)
     end,
     lr_dest r,
     Some (mkTraced (snd (Close (lr_next r)))
             (calls t ++ [CallLoadNext; CallClose]))) /\
  (exists e, First (@None (Traced S)) dest = ((None, Some e), dest, None) /\
             Is_err ErrArgument e = true).
Proof.
  intros r. split.
  - unfold First. rewrite traced_LoadNext. cbn [lr_err lr_key lr_dest lr_next].
    rewrite traced_Close. cbn [snd inner calls]. rewrite <- app_assoc. cbn [app].
    fold r. destruct (lr_err r); reflexivity.
  - eexists. split; reflexivity.
Qed.

(** X2.  [First] on a single-value iterator built from a non-nil buffer
    decodes the buffer into the destination; it returns the RowID when the
    decoding succeeds, and the decoding error with a nil RowID otherwise.
    Either way the iterator it leaves behind is used up: every later [First]
    on it with a non-nil destination returns [ErrIteratorDone]. *)
Theorem First_single_value (rowID : RowID) (b : list Byte.byte) (m m' : Model) :
  let out := First (Some (NewSingleValueIterator rowID (Some b))) (Some m) in
  fst (fst out) =
    match snd (Unmarshal b m) with
    | Some e => (None, Some e)
    | None => (rowID, None)
    end /\
  snd (fst out) = Some (fst (Unmarshal b m)) /\
  fst (fst (First (snd out) (Some m'))) =
    (None, Some (Registered ErrIteratorDone)).
Proof.
  intros out.
  assert (Hout : out =
            (match snd (Unmarshal b m) with
             | Some e => (None, Some e)
             | None => (rowID, None)
             end,
             Some (fst (Unmarshal b m)),
             Some (mkSingleValue rowID (Some b) true))).
  { subst out. unfold First. rewrite singleValue_first.
    cbn [lr_err lr_key lr_dest lr_next].
    destruct (snd (Unmarshal b m)); reflexivity. }
  rewrite Hout. cbn [fst snd].
  split; [reflexivity|]. split; [reflexivity|].
  assert (Hspent : spent (mkSingleValue rowID (Some b) true)) by (left; reflexivity).
  unfold First. rewrite (singleValue_spent_done _ m' Hspent). reflexivity.
Qed.

(** ** Retrieval operations unfolded *)

Lemma ReadAll_unfold {S : Type} `{Iterator S} (fuel : nat) (s : S)
    (dest : ModelSlicePtr) (info : destInfo) :
  assertDest dest = inl info ->
  ReadAll fuel (Some s) dest =
  match readAll_loop (elemType info) fuel s (destRef info) (Some []) None with
  | None => None
  | Some (Panics msg) => Some (Panics msg)
  | Some (Returns ex) =>
      Some (Returns (mkReadAllResult (rx_rowIDs ex) (rx_err ex)
                       (commit dest (rx_destRef ex))
                       (Some (snd (Close (rx_it ex))))))
  end.
Proof.
  intros Hd. unfold ReadAll. rewrite Hd.
  destruct (assertDest_inl _ _ Hd) as (contents & _ & -> & _). reflexivity.
Qed.

Lemma Paginate_unfold {S : Type} `{Iterator S} (fuel : nat) (s : S)
    (pageRequest : option PageRequest) (dest : ModelSlicePtr) (info : destInfo) :
  let req := match pageRequest with
             | None => mkPageRequest None 0 0 false
             | Some r => r
             end in
  let limit := if Limit req =? 0 then 100 else Limit req in
  let countTotal := if Limit req =? 0 then true else CountTotal req in
  (0 <? Offset req) && negb (is_nil (Key req)) = false ->
  assertDest dest = inl info ->
  Paginate fuel (Some s) pageRequest dest =
  match paginate_loop (elemType info) (Offset req)
          (wrap_uint64 (Offset req + limit)) (Key req) countTotal fuel s
          (destRef info) (Some []) 0 None with
  | None => None
  | Some ex =>
      match ex_err ex with
      | Some e =>
          Some (mkPaginateResult None (Some e) (commit dest (ex_destRef ex))
                  (Some (snd (Close (ex_it ex)))))
      | None =>
          Some (mkPaginateResult
                  (Some (mkPageResponse (ex_nextKey ex)
                           (if countTotal && (len (Key req) =? 0)
                            then ex_count ex else 0)))
                  None (commit dest (ex_destRef ex))
                  (Some (snd (Close (ex_it ex)))))
      end
  end.
Proof.
  intros req limit countTotal Hshape Hd. unfold Paginate. fold req.
  rewrite Hshape, Hd. fold limit. fold countTotal.
  destruct (assertDest_inl _ _ Hd) as (contents & _ & -> & _). reflexivity.
Qed.

(** ** Errors of the iterator *)

Lemma readAll_loop_fail {S : Type} `{Iterator S} (et : GoType) (s : S)
    (e : error) (fuel : nat) (dref tmp : slice Model) (ids : slice RowID) :
  Implements (model_type et) = true ->
  lr_err (LoadNext s (Some zero)) = Some e ->
  Is_err ErrIteratorDone e = false ->
  readAll_loop et (Datatypes.S fuel) s dref tmp ids =
  Some (Returns (mkReadExit None (Some e) dref (lr_next (LoadNext s (Some zero))))).
Proof.
  intros Het He Hnd. cbn [readAll_loop]. rewrite Het. cbn [negb].
  rewrite He, Hnd. reflexivity.
Qed.

(** X3.  When the iterator yields the records [rs] and then fails with an
    error [e] other than [ErrIteratorDone], [ReadAll] on a valid destination
    returns [e] unchanged together with a nil RowID list, although RowIDs had
    been collected; the destination keeps its contents and the iterator is
    closed after the failed load. *)
Theorem ReadAll_returns_first_error {S : Type} `{Iterator S}
    (s s' : S) (rs : list (LoadResult S)) (e : error)
    (dest : ModelSlicePtr) (info : destInfo) (fuel : nat) :
  assertDest dest = inl info ->
  Implements (model_type (elemType info)) = true ->
  Steps s rs s' ->
  Forall (@loaded_ok S) rs ->
  lr_err (LoadNext s' (Some zero)) = Some e ->
  Is_err ErrIteratorDone e = false ->
  (List.length rs < fuel)%nat ->
  ReadAll fuel (Some s) dest =
    Some (Returns
            (mkReadAllResult None (Some e) dest
               (Some (snd (Close (lr_next (LoadNext s' (Some zero)))))))).
Proof.
  intros Hd Het Hsteps Hok He Hnd Hfuel.
  rewrite (ReadAll_unfold _ _ _ _ Hd).
  replace fuel with (List.length rs + Datatypes.S (fuel - List.length rs - 1))%nat
    by lia.
  rewrite (readAll_loop_steps _ Het rs s s' Hsteps Hok).
  rewrite (readAll_loop_fail _ _ _ _ _ _ _ Het He Hnd).
  cbn [rx_rowIDs rx_err rx_destRef rx_it].
  rewrite (commit_destRef _ _ Hd). reflexivity.
Qed.

Section PaginateFailure.

Context {S : Type} `{Iterator S}.
Variable et : GoType.
Variables (offset end_ : Z) (key : bytes) (ct : bool).
Hypothesis et_ok : Implements (model_type et) = true.

Lemma loop_fail (s : S) (e : error) (fuel : nat) (dref tmp : slice Model)
    (c : Z) (nk : bytes) :
  lr_err (LoadNext s (Some zero)) = Some e ->
  Is_err ErrIteratorDone e = false ->
  0 <= c -> offset <= c -> c + 1 < 2 ^ 64 ->
  paginate_loop et offset end_ key ct (Datatypes.S fuel) s dref tmp c nk =
  Some (mkExit (Some e) dref (c + 1) nk (lr_next (LoadNext s (Some zero)))).
Proof.
  intros He Hnd Hc Hoff Hmax. cbn [paginate_loop]. rewrite et_ok. cbn [negb].
  rewrite He. cbn [Is]. rewrite Hnd.
  rewrite wrap_uint64_small by lia.
  destruct (Z.leb_spec (c + 1) offset); [lia|reflexivity].
Qed.

End PaginateFailure.

(** X4.  When the iterator yields the results [rs], successful past the
    offset window, and then fails with an error [e] other than
    [ErrIteratorDone] on a load whose count lies in the limit window or just
    past it ([offset < count <= end + 1]), [Paginate] returns [e] unchanged
    and no response; the destination keeps its contents and the iterator is
    closed after the failed load. *)
Theorem Paginate_returns_error_past_offset {S : Type} `{Iterator S}
    (s s' : S) (rs : list (LoadResult S)) (e : error) (req : PageRequest)
    (dest : ModelSlicePtr) (info : destInfo) (fuel : nat) :
  let limit := if Limit req =? 0 then 100 else Limit req in
  assertDest dest = inl info ->
  Implements (model_type (elemType info)) = true ->
  0 <= Offset req -> 0 <= Limit req -> Offset req + limit < 2 ^ 64 ->
  (0 < Offset req -> Key req = None) ->
  Steps s rs s' ->
  Forall (@loaded_ok S) (skipn (Z.to_nat (Offset req)) rs) ->
  Offset req <= Z.of_nat (List.length rs) <= Offset req + limit ->
  Z.of_nat (List.length rs) + 1 < 2 ^ 64 ->
  lr_err (LoadNext s' (Some zero)) = Some e ->
  Is_err ErrIteratorDone e = false ->
  (List.length rs < fuel)%nat ->
  Paginate fuel (Some s) (Some req) dest =
    Some (mkPaginateResult None (Some e) dest
            (Some (snd (Close (lr_next (LoadNext s' (Some zero))))))).
Proof.
  intros limit Hd Het Hoff Hlim Hmax Hshape Hsteps Hok Hlen Hn He Hnd Hfuel.
  assert (Hshape' : (0 <? Offset req) && negb (is_nil (Key req)) = false).
  { destruct (Z.ltb_spec 0 (Offset req)) as [Hpos|]; [|reflexivity].
    rewrite (Hshape Hpos). reflexivity. }
  assert (Hlimit : 0 <= limit).
  { subst limit. destruct (Limit req =? 0); lia. }
  rewrite (Paginate_unfold fuel s (Some req) dest info Hshape' Hd).
  cbv zeta. fold limit. rewrite wrap_uint64_small by lia.
  set (ct := if Limit req =? 0 then true else CountTotal req).
  set (o := Z.to_nat (Offset req)) in *.
  pose proof (firstn_skipn o rs) as Hsplit.
  rewrite <- Hsplit in Hsteps.
  destruct (Steps_app _ _ _ _ Hsteps) as (mid & Ha & Hb).
  assert (Hla : List.length (firstn o rs) = o) by (apply firstn_length_le; lia).
  assert (Hlb : List.length (skipn o rs) = (List.length rs - o)%nat)
    by apply length_skipn.
  replace fuel with
    (List.length (firstn o rs) +
     (List.length (skipn o rs) + Datatypes.S (fuel - List.length rs - 1)))%nat
    by lia.
  rewrite (loop_skip _ _ _ _ _ Het _ _ _ Ha) by lia.
  rewrite (loop_append _ _ _ _ _ Het _ _ _ Hb Hok) by lia.
  rewrite (loop_fail _ _ _ _ _ Het s' e _ _ _ _ _ He Hnd) by lia.
  cbn [ex_err ex_destRef ex_it].
  rewrite (commit_destRef _ _ Hd). reflexivity.
Qed.

(** ** The invalid iterator *)

Lemma invalid_drive (ds : list (option Model)) : drive NewInvalidIterator ds = tt.
Proof. destruct (drive NewInvalidIterator ds). reflexivity. Qed.

Lemma invalid_Steps (n : nat) :
  Steps tt (repeat (LoadNext tt (Some zero)) n) tt.
Proof.
  induction n as [|n IH]; cbn [repeat]; [constructor|].
  apply Steps_cons; [reflexivity|]. exact IH.
Qed.

(** X5.  The invalid iterator answers every [LoadNext] with
    [ErrIteratorInvalid], whatever calls came before, and so never reports
    [ErrIteratorDone].  [First], [ReadAll] and [Paginate] over it return
    [ErrIteratorInvalid], never an empty result, and leave the destination
    alone; for [Paginate] the offset must be below the largest [uint64]. *)
Theorem invalid_iterator_is_reported (ds : list (option Model))
    (d : option Model) (req : PageRequest) (dest : ModelSlicePtr)
    (info : destInfo) (fuel : nat) :
  assertDest dest = inl info ->
  Implements (model_type (elemType info)) = true ->
  0 <= Offset req < 2 ^ 64 - 1 ->
  (0 < Offset req -> Key req = None) ->
  (Z.to_nat (Offset req) < fuel)%nat ->
  LoadNext (drive NewInvalidIterator ds) d =
    mkLoad None (Some (Registered ErrIteratorInvalid)) d tt /\
  First (Some NewInvalidIterator) d =
    ((None, Some (Registered ErrIteratorInvalid)), d, Some tt) /\
  ReadAll fuel (Some NewInvalidIterator) dest =
    Some (Returns (mkReadAllResult None (Some (Registered ErrIteratorInvalid))
                     dest (Some tt))) /\
  Paginate fuel (Some NewInvalidIterator) (Some req) dest =
    Some (mkPaginateResult None (Some (Registered ErrIteratorInvalid)) dest
            (Some tt)).
Proof.
  intros Hd Het Hoff Hshape Hfuel.
  split; [rewrite invalid_drive; reflexivity|].
  split; [reflexivity|].
  split.
  - rewrite (ReadAll_unfold _ _ _ _ Hd).
    destruct fuel as [|fuel]; [lia|].
    rewrite (readAll_loop_fail _ tt (Registered ErrIteratorInvalid) _ _ _ _ Het)
      by reflexivity.
    cbn [rx_rowIDs rx_err rx_destRef rx_it].
    rewrite (commit_destRef _ _ Hd). reflexivity.
  - assert (Hshape' : (0 <? Offset req) && negb (is_nil (Key req)) = false).
    { destruct (Z.ltb_spec 0 (Offset req)) as [Hpos|]; [|reflexivity].
      rewrite (Hshape Hpos). reflexivity. }
    rewrite (Paginate_unfold fuel tt (Some req) dest info Hshape' Hd).
    cbv zeta.
    set (o := Z.to_nat (Offset req)) in *.
    pose proof (invalid_Steps o) as Hsteps.
    replace fuel with
      (List.length (repeat (LoadNext tt (Some zero)) o) +
       Datatypes.S (fuel - o - 1))%nat by (rewrite repeat_length; lia).
    rewrite (loop_skip _ _ _ _ _ Het _ _ _ Hsteps)
      by (rewrite ?repeat_length; lia).
    rewrite (loop_fail _ _ _ _ _ Het tt (Registered ErrIteratorInvalid))
      by (rewrite ?repeat_length; reflexivity || lia).
    cbn [ex_err ex_destRef ex_it].
    rewrite (commit_destRef _ _ Hd). reflexivity.
Qed.

(** ** Element types that cannot be decoded into *)


(** ** The limited iterator under arbitrary calls *)

Lemma limited_zero_replies {P : Type} `{Iterator P} (ds : list (option Model)) :
  forall i : LimitedIterator P,
    remainingCount i = 0 ->
    replies i ds =
    map (fun d => (None, Some (Registered ErrIteratorDone), d)) ds.
Proof.
  induction ds as [|d ds IH]; intros i Hz; cbn [replies map]; [reflexivity|].
  rewrite (limited_zero i d Hz). cbn [lr_key lr_err lr_dest lr_next].
  rewrite (IH i Hz). reflexivity.
Qed.

Lemma limited_any_calls {P : Type} `{Iterator P} (ds : list (option Model)) :
  forall (c : Z) (p : P),
    0 <= c <= 2 ^ 63 - 1 ->
    replies (mkLimited c p) ds =
      replies p (firstn (Z.to_nat c) ds) ++
      map (fun d => (None, Some (Registered ErrIteratorDone), d))
        (skipn (Z.to_nat c) ds) /\
    parentIterator (drive (mkLimited c p) ds) = drive p (firstn (Z.to_nat c) ds).
Proof.
  induction ds as [|d ds IH]; intros c p Hc.
  - rewrite firstn_nil, skipn_nil. split; reflexivity.
  - destruct (Z.eq_dec c 0) as [->|Hnz].
    + cbn [Z.to_nat firstn skipn replies app drive].
      rewrite limited_zero_replies by reflexivity.
      rewrite limited_zero_drive by reflexivity. split; reflexivity.
    + replace (Z.to_nat c) with (Datatypes.S (Z.to_nat (c - 1))) by lia.
      cbn [firstn skipn replies drive app].
      rewrite (limited_delegates (mkLimited c p) d) by exact Hnz.
      cbn [lr_key lr_err lr_dest lr_next remainingCount parentIterator].
      rewrite wrap_int_small by lia.
      destruct (IH (c - 1) (lr_next (LoadNext p d))) as [IH1 IH2]; [lia|].
      rewrite IH1, IH2. split; reflexivity.
Qed.

(** X7.  Whatever the parent does and whatever destinations are passed, a
    [LimitedIterator] built with [0 <= max] hands the first [max] calls to
    [LoadNext] on to the parent and returns its answers, and answers every
    later call with [ErrIteratorDone] and a nil RowID without writing to the
    destination; the parent thus receives [min(max, number of calls)] calls
    and never more than [max]. *)
Theorem limited_iterator_any_calls (P : Type) (H : Iterator P)
    (parent : Traced P) (max : Z) (ds : list (option Model)) :
  0 <= max <= 2 ^ 63 - 1 ->
  exists i : LimitedIterator (Traced P),
    LimitIterator (Some parent) max = Returns i /\
    replies i ds =
      replies parent (firstn (Z.to_nat max) ds) ++
      map (fun d => (None, Some (Registered ErrIteratorDone), d))
        (skipn (Z.to_nat max) ds) /\
    calls (parentIterator (drive i ds)) =
      calls parent ++
      repeat CallLoadNext (Nat.min (Z.to_nat max) (List.length ds)).
Proof.
  intros Hmax. exists (mkLimited max parent).
  destruct (limited_any_calls ds max parent Hmax) as [Hrep Hpar].
  split.
  { unfold LimitIterator. destruct (Z.ltb_spec max 0); [lia|reflexivity]. }
  split; [exact Hrep|].
  rewrite Hpar, traced_drive_calls, length_firstn. reflexivity.
Qed.

(** X8.  Limits compose: a limit of [b] on top of a limit of [a] answers
    every sequence of calls as a single limit of [min a b] does, and leaves
    the underlying iterator in the same state. *)
Theorem nested_limits_take_the_minimum (P : Type) (H : Iterator P)
    (ds : list (option Model)) :
  forall (a b : Z) (p : P),
    0 <= a <= 2 ^ 63 - 1 ->
    0 <= b <= 2 ^ 63 - 1 ->
    replies (mkLimited b (mkLimited a p)) ds =
      replies (mkLimited (Z.min a b) p) ds /\
    parentIterator (parentIterator (drive (mkLimited b (mkLimited a p)) ds)) =
      parentIterator (drive (mkLimited (Z.min a b) p) ds).
Proof.
  induction ds as [|d ds IH]; intros a b p Ha Hb; [split; reflexivity|].
  cbn [replies drive].
  destruct (Z.eq_dec b 0) as [->|Hb0].
  - replace (Z.min a 0) with 0 by lia.
    rewrite (limited_zero (mkLimited 0 (mkLimited a p)) d) by reflexivity.
    rewrite (limited_zero (mkLimited 0 p) d) by reflexivity.
    cbn [lr_key lr_err lr_dest lr_next].
    destruct (IH a 0 p Ha Hb) as [IH1 IH2].
    replace (Z.min a 0) with 0 in IH1, IH2 by lia.
    rewrite IH1, IH2. split; reflexivity.
  - rewrite (limited_delegates (mkLimited b (mkLimited a p)) d) by exact Hb0.
    cbn [lr_key lr_err lr_dest lr_next remainingCount parentIterator].
    rewrite (wrap_int_small (b - 1)) by lia.
    destruct (Z.eq_dec a 0) as [->|Ha0].
    + replace (Z.min 0 b) with 0 by lia.
      rewrite (limited_zero (mkLimited 0 p) d) by reflexivity.
      cbn [lr_key lr_err lr_dest lr_next].
      destruct (IH 0 (b - 1) p) as [IH1 IH2]; [lia|lia|].
      replace (Z.min 0 (b - 1)) with 0 in IH1, IH2 by lia.
      rewrite IH1, IH2. split; reflexivity.
    + rewrite (limited_delegates (mkLimited a p) d) by exact Ha0.
      rewrite (limited_delegates (mkLimited (Z.min a b) p) d) by (cbn; lia).
      cbn [lr_key lr_err lr_dest lr_next remainingCount parentIterator].
      rewrite (wrap_int_small (a - 1)) by lia.
      rewrite (wrap_int_small (Z.min a b - 1)) by lia.
      destruct (IH (a - 1) (b - 1) (lr_next (LoadNext p d))) as [IH1 IH2];
        [lia|lia|].
      replace (Z.min (a - 1) (b - 1)) with (Z.min a b - 1) in IH1, IH2 by lia.
      rewrite IH1, IH2. split; reflexivity.
Qed.

(** ** ReadAll through a limit *)

Lemma readAll_loop_limited {P : Type} `{Iterator P} (et : GoType)
    (rs : list (LoadResult P)) (p p' : P) :
  Implements (model_type et) = true ->
  Steps p rs p' ->
  Forall (@loaded_ok P) rs ->
  forall (c : Z) (fuel : nat) (dref tmp : slice Model) (ids : slice RowID),
    Z.of_nat (List.length rs) <= c <= 2 ^ 63 - 1 ->
    readAll_loop et (List.length rs + fuel) (mkLimited c p) dref tmp ids =
    readAll_loop et fuel (mkLimited (c - Z.of_nat (List.length rs)) p') dref
      (fold_left append (map (@loaded P) rs) tmp)
      (fold_left append (map (@lr_key P) rs) ids).
Proof.
  intros Het. induction 1 as [s|s rs s' Hnd Hsteps IH];
    intros Hok c fuel dref tmp ids Hc.
  - cbn [List.length Nat.add map fold_left]. do 2 f_equal. cbn. lia.
  - inversion Hok as [|r rs' Hr Hrs]; subst. unfold loaded_ok in Hr.
    cbn [List.length] in Hc |- *. cbn [Nat.add readAll_loop map fold_left].
    rewrite Het. cbn [negb].
    rewrite (limited_delegates (mkLimited c s) (Some zero)) by (cbn; lia).
    cbn [lr_key lr_err lr_dest lr_next remainingCount parentIterator].
    rewrite Hr. rewrite wrap_int_small by lia.
    rewrite (IH Hrs (c - 1)) by lia.
    unfold loaded. cbn [lr_dest]. do 2 f_equal. lia.
Qed.

(** X9.  [ReadAll] through [LimitIterator(parent, max)], for a parent that
    yields the records [rs] and is then exhausted, stores the first [max]
    records of the parent and returns their RowIDs, the whole of [rs] when
    the parent holds fewer than [max] records. *)
Theorem ReadAll_through_limit {P : Type} `{Iterator P} (p p' : P)
    (rs : list (LoadResult P)) (max : Z) (dest : ModelSlicePtr)
    (info : destInfo) (fuel : nat) :
  assertDest dest = inl info ->
  Implements (model_type (elemType info)) = true ->
  0 <= max <= 2 ^ 63 - 1 ->
  Steps p rs p' ->
  Forall (@loaded_ok P) rs ->
  exhausted p' ->
  (List.length rs < fuel)%nat ->
  exists (i i' : LimitedIterator P),
    LimitIterator (Some p) max = Returns i /\
    ReadAll fuel (Some i) dest =
      Some (Returns
              (mkReadAllResult (rowIDs_of (firstn (Z.to_nat max) rs)) None
                 (commit dest
                    (Some (map (@loaded P) (firstn (Z.to_nat max) rs))))
                 (Some i'))).
Proof.
  intros Hd Het Hmax Hsteps Hok Hdone Hfuel.
  exists (mkLimited max p).
  set (n := Z.to_nat max).
  pose proof (firstn_skipn n rs) as Hsplit.
  rewrite <- Hsplit in Hsteps, Hok.
  destruct (Steps_app _ _ _ _ Hsteps) as (mid & Ha & Hb).
  apply Forall_app in Hok. destruct Hok as [Hoka _].
  assert (Hla : (List.length (firstn n rs) <= n)%nat) by apply firstn_le_length.
  assert (Hla' : (List.length (firstn n rs) <= List.length rs)%nat)
    by (rewrite length_firstn; lia).
  assert (Hend : exists ex,
    readAll_loop (elemType info)
      (Datatypes.S (fuel - List.length (firstn n rs) - 1))
      (mkLimited (max - Z.of_nat (List.length (firstn n rs))) mid)
      (destRef info)
      (fold_left append (map (@loaded P) (firstn n rs)) (Some []))
      (fold_left append (map (@lr_key P) (firstn n rs)) None) =
    Some (Returns (mkReadExit
                     (fold_left append (map (@lr_key P) (firstn n rs)) None) None
                     (fold_left append (map (@loaded P) (firstn n rs)) (Some []))
                     ex))).
  { destruct (Z.eq_dec (max - Z.of_nat (List.length (firstn n rs))) 0) as [Hz|Hnz].
    - eexists. cbn [readAll_loop]. rewrite Het. cbn [negb].
      rewrite limited_zero by exact Hz. reflexivity.
    - assert (Hall : skipn n rs = []).
      { apply skipn_all2. rewrite length_firstn in Hnz. lia. }
      rewrite Hall in Hb. apply Steps_nil_inv in Hb. subst mid.
      destruct (exhausted_err p' Hdone) as (e & He & Hde).
      eexists. cbn [readAll_loop]. rewrite Het. cbn [negb].
      rewrite limited_delegates by exact Hnz. cbv zeta.
      cbn [lr_key lr_err lr_dest lr_next remainingCount parentIterator].
      rewrite He, Hde. reflexivity. }
  destruct Hend as [ex Hex]. exists (snd (Close ex)).
  split.
  { unfold LimitIterator. destruct (Z.ltb_spec max 0); [lia|reflexivity]. }
  rewrite (ReadAll_unfold _ _ _ _ Hd).
  replace fuel with
    (List.length (firstn n rs) +
     Datatypes.S (fuel - List.length (firstn n rs) - 1))%nat by lia.
  rewrite (readAll_loop_limited _ _ _ _ Het Ha Hoka) by lia.
  rewrite Hex. cbn [rx_rowIDs rx_err rx_destRef rx_it].
  rewrite fold_append_Some, fold_append_None. cbn [app].
  unfold rowIDs_of. destruct (firstn n rs); reflexivity.
Qed.

(** ** Closing the iterator *)

Lemma traced_next_calls {S : Type} `{Iterator S} (t : Traced S)
    (d : option Model) :
  calls (lr_next (LoadNext t d)) = calls t ++ [CallLoadNext].
Proof. reflexivity. Qed.

Lemma readAll_loop_calls {S : Type} `{Iterator S} (et : GoType) (fuel : nat) :
  forall (t : Traced S) (dref tmp : slice Model) (ids : slice RowID)
         (ex : readExit (Traced S)),
    readAll_loop et fuel t dref tmp ids = Some (Returns ex) ->
    exists n : nat,
      (1 <= n <= fuel)%nat /\
      calls (rx_it ex) = calls t ++ repeat CallLoadNext n.
Proof.
  induction fuel as [|fuel IH]; intros t dref tmp ids ex; cbn [readAll_loop];
    [discriminate|].
  destruct (negb (Implements (model_type et))); [discriminate|].
  destruct (lr_err (LoadNext t (Some zero))) as [e|].
  - intros Hres. exists 1%nat. split; [lia|].
    destruct (Is_err ErrIteratorDone e); injection Hres as <-;
      apply traced_next_calls.
  - intros Hloop. destruct (IH _ _ _ _ _ Hloop) as (n & Hn & Hcalls).
    exists (Datatypes.S n). split; [lia|].
    rewrite Hcalls, traced_next_calls. apply loads_snoc.
Qed.

(** X10.  Whenever [ReadAll] returns on a non-nil iterator, the iterator has
    received a run of [LoadNext] calls followed by exactly one [Close], and
    nothing else: no load after the close, no second close.  There is no
    load at all when the destination is refused, and at least one
    otherwise. *)
Theorem ReadAll_closes_once {S : Type} `{Iterator S} (t : Traced S)
    (dest : ModelSlicePtr) (fuel : nat) (r : ReadAllResult (Traced S)) :
  ReadAll fuel (Some t) dest = Some (Returns r) ->
  exists (n : nat) (t' : Traced S),
    ra_it r = Some t' /\
    calls t' = calls t ++ repeat CallLoadNext n ++ [CallClose] /\
    (n <= fuel)%nat /\
    ((exists e, assertDest dest = inr e) -> n = 0%nat) /\
    ((exists info, assertDest dest = inl info) -> (1 <= n)%nat).
Proof.
  unfold ReadAll. destruct (assertDest dest) as [info|e] eqn:Hd.
  - destruct (readAll_loop (elemType info) fuel t (destRef info) (tmpSlice info) None)
      as [[ex|msg]|] eqn:Hloop; try discriminate.
    intros [= <-]. cbn [ra_it].
    destruct (readAll_loop_calls _ _ _ _ _ _ _ Hloop) as (n & Hn & Hcalls).
    exists n, (snd (Close (rx_it ex))). split; [reflexivity|].
    rewrite traced_Close. cbn [snd calls]. rewrite Hcalls, <- app_assoc.
    split; [reflexivity|]. split; [lia|].
    split; [intros [e' He']; discriminate|intros _; lia].
  - intros [= <-]. cbn [ra_it]. exists 0%nat, (snd (Close t)).
    split; [reflexivity|]. rewrite traced_Close. cbn [snd calls repeat app].
    split; [reflexivity|]. split; [lia|].
    split; [reflexivity|intros [info Hi]; discriminate].
Qed.

Section PaginateCalls.

Context {S : Type} `{Iterator S}.
Variable et : GoType.
Variables (offset end_ : Z) (key : bytes) (ct : bool).

Lemma paginate_loop_calls (fuel : nat) :
  forall (t : Traced S) (dref tmp : slice Model) (c : Z) (nk : bytes)
         (ex : loopExit (Traced S)),
    paginate_loop et offset end_ key ct fuel t dref tmp c nk = Some ex ->
    exists n : nat,
      (n <= fuel)%nat /\
      calls (ex_it ex) = calls t ++ repeat CallLoadNext n.
Proof.
  induction fuel as [|fuel IH]; intros t dref tmp c nk ex; cbn [paginate_loop];
    [discriminate|].
  assert (Hone : forall ex' : loopExit (Traced S),
             ex_it ex' = lr_next (LoadNext t (Some zero)) ->
             exists n : nat,
               (n <= Datatypes.S fuel)%nat /\
               calls (ex_it ex') = calls t ++ repeat CallLoadNext n).
  { intros ex' ->. exists 1%nat. split; [lia|]. apply traced_next_calls. }
  assert (Hrec : forall dref' tmp' c' nk',
             paginate_loop et offset end_ key ct fuel
               (lr_next (LoadNext t (Some zero))) dref' tmp' c' nk' = Some ex ->
             exists n : nat,
               (n <= Datatypes.S fuel)%nat /\
               calls (ex_it ex) = calls t ++ repeat CallLoadNext n).
  { intros dref' tmp' c' nk' Hloop.
    destruct (IH _ _ _ _ _ _ Hloop) as (n & Hn & Hcalls).
    exists (Datatypes.S n). split; [lia|].
    rewrite Hcalls, traced_next_calls. apply loads_snoc. }
  destruct (negb (Implements (model_type et))).
  { intros [= <-]. exists 0%nat. split; [lia|]. cbn. rewrite app_nil_r. reflexivity. }
  destruct (Is ErrIteratorDone (lr_err (LoadNext t (Some zero))));
    [intros [= <-]; apply Hone; reflexivity|].
  destruct (wrap_uint64 (c + 1) <=? offset); [apply Hrec|].
  destruct (lr_err (LoadNext t (Some zero))) as [e|];
    [intros [= <-]; apply Hone; reflexivity|].
  destruct (wrap_uint64 (c + 1) <=? end_); [apply Hrec|].
  destruct (wrap_uint64 (c + 1) =? wrap_uint64 (end_ + 1)); [|apply Hrec].
  destruct (negb ct || negb (len key =? 0));
    [intros [= <-]; apply Hone; reflexivity|apply Hrec].
Qed.

(** With no total to compute the scan stops at count [end_ + 1]. *)
Lemma paginate_loop_calls_bounded (fuel : nat) :
  negb ct || negb (len key =? 0) = true ->
  offset <= end_ -> end_ + 1 < 2 ^ 64 ->
  forall (t : Traced S) (dref tmp : slice Model) (c : Z) (nk : bytes)
         (ex : loopExit (Traced S)),
    0 <= c <= end_ ->
    paginate_loop et offset end_ key ct fuel t dref tmp c nk = Some ex ->
    exists n : nat,
      c + Z.of_nat n <= end_ + 1 /\
      calls (ex_it ex) = calls t ++ repeat CallLoadNext n.
Proof.
  intros Hflag Hoff Hmax.
  induction fuel as [|fuel IH]; intros t dref tmp c nk ex Hc;
    cbn [paginate_loop]; [discriminate|].
  assert (Hone : forall ex' : loopExit (Traced S),
             ex_it ex' = lr_next (LoadNext t (Some zero)) ->
             exists n : nat,
               c + Z.of_nat n <= end_ + 1 /\
               calls (ex_it ex') = calls t ++ repeat CallLoadNext n).
  { intros ex' ->. exists 1%nat. split; [lia|]. apply traced_next_calls. }
  assert (Hrec : forall dref' tmp' nk',
             c + 1 <= end_ ->
             paginate_loop et offset end_ key ct fuel
               (lr_next (LoadNext t (Some zero))) dref' tmp' (c + 1) nk' = Some ex ->
             exists n : nat,
               c + Z.of_nat n <= end_ + 1 /\
               calls (ex_it ex) = calls t ++ repeat CallLoadNext n).
  { intros dref' tmp' nk' Hc' Hloop.
    destruct (IH _ _ _ _ _ _ (conj (Z.le_trans _ _ _ (proj1 Hc) (Z.le_succ_diag_r c)) Hc') Hloop)
      as (n & Hn & Hcalls).
    exists (Datatypes.S n). split; [lia|].
    rewrite Hcalls, traced_next_calls. apply loads_snoc. }
  destruct (negb (Implements (model_type et))).
  { intros [= <-]. exists 0%nat. split; [lia|]. cbn. rewrite app_nil_r. reflexivity. }
  destruct (Is ErrIteratorDone (lr_err (LoadNext t (Some zero))));
    [intros [= <-]; apply Hone; reflexivity|].
  rewrite (wrap_uint64_small (c + 1)) by lia.
  rewrite (wrap_uint64_small (end_ + 1)) by lia.
  destruct (Z.leb_spec (c + 1) offset); [apply Hrec; lia|].
  destruct (lr_err (LoadNext t (Some zero))) as [e|];
    [intros [= <-]; apply Hone; reflexivity|].
  destruct (Z.leb_spec (c + 1) end_); [apply Hrec; lia|].
  destruct (Z.eqb_spec (c + 1) (end_ + 1)); [|lia].
  rewrite Hflag. intros [= <-]; apply Hone; reflexivity.
Qed.

End PaginateCalls.

(** X11.  Whenever [Paginate] returns on a non-nil iterator and a request
    that does not give both an offset and a key, the iterator has received a
    run of [LoadNext] calls followed by exactly one [Close], and nothing
    else. *)
Theorem Paginate_closes_once {S : Type} `{Iterator S} (t : Traced S)
    (pageRequest : option PageRequest) (dest : ModelSlicePtr) (fuel : nat)
    (r : PaginateResult (Traced S)) :
  let req := match pageRequest with
             | None => mkPageRequest None 0 0 false
             | Some q => q
             end in
  (0 <? Offset req) && negb (is_nil (Key req)) = false ->
  Paginate fuel (Some t) pageRequest dest = Some r ->
  exists (n : nat) (t' : Traced S),
    pg_it r = Some t' /\
    calls t' = calls t ++ repeat CallLoadNext n ++ [CallClose] /\
    (n <= fuel)%nat.
Proof.
  intros req Hshape. destruct (assertDest dest) as [info|e] eqn:Hd.
  - rewrite (Paginate_unfold fuel t pageRequest dest info Hshape Hd). cbv zeta.
    match goal with
    | |- match ?l with _ => _ end = _ -> _ => destruct l as [ex|] eqn:Hloop
    end; [|discriminate].
    destruct (paginate_loop_calls _ _ _ _ _ _ _ _ _ _ _ _ Hloop)
      as (n & Hn & Hcalls).
    intros Hres. exists n, (snd (Close (ex_it ex))).
    split; [destruct (ex_err ex); injection Hres as <-; reflexivity|].
    rewrite traced_Close. cbn [snd calls]. rewrite Hcalls, <- app_assoc.
    split; [reflexivity|lia].
  - unfold Paginate. fold req. rewrite Hshape, Hd. intros [= <-].
    exists 0%nat, (snd (Close t)). split; [reflexivity|].
    rewrite traced_Close. cbn [snd calls repeat app]. split; [reflexivity|lia].
Qed.

(** X12.  When no total is to be computed ([CountTotal] off after
    defaulting, or a non-empty key), [Paginate] never loads past the first
    record behind the limit window: the iterator receives at most
    [offset + limit + 1] calls to [LoadNext], then one [Close]. *)
Theorem Paginate_scan_is_bounded {S : Type} `{Iterator S} (t : Traced S)
    (pageRequest : option PageRequest) (dest : ModelSlicePtr) (fuel : nat)
    (r : PaginateResult (Traced S)) :
  let req := match pageRequest with
             | None => mkPageRequest None 0 0 false
             | Some q => q
             end in
  let limit := if Limit req =? 0 then 100 else Limit req in
  let countTotal := if Limit req =? 0 then true else CountTotal req in
  (0 <? Offset req) && negb (is_nil (Key req)) = false ->
  0 <= Offset req -> 0 <= Limit req -> Offset req + limit + 1 < 2 ^ 64 ->
  countTotal = false \/ len (Key req) <> 0 ->
  Paginate fuel (Some t) pageRequest dest = Some r ->
  exists (n : nat) (t' : Traced S),
    pg_it r = Some t' /\
    calls t' = calls t ++ repeat CallLoadNext n ++ [CallClose] /\
    Z.of_nat n <= Offset req + limit + 1.
Proof.
  intros req limit countTotal Hshape Hoff Hlim Hmax Hflag.
  assert (Hlimit : 0 <= limit).
  { subst limit. destruct (Limit req =? 0); lia. }
  assert (Hflag' : negb countTotal || negb (len (Key req) =? 0) = true).
  { destruct Hflag as [-> | Hkey]; [reflexivity|].
    destruct (Z.eqb_spec (len (Key req)) 0); [contradiction|apply orb_true_r]. }
  destruct (assertDest dest) as [info|e] eqn:Hd.
  - rewrite (Paginate_unfold fuel t pageRequest dest info Hshape Hd). cbv zeta.
    fold req. fold limit. fold countTotal.
    rewrite wrap_uint64_small by lia.
    match goal with
    | |- match ?l with _ => _ end = _ -> _ => destruct l as [ex|] eqn:Hloop
    end; [|discriminate].
    assert (Hwin : Offset req <= Offset req + limit) by lia.
    assert (Hzero : 0 <= 0 <= Offset req + limit) by lia.
    destruct (paginate_loop_calls_bounded _ _ _ _ _ _ Hflag' Hwin Hmax
                _ _ _ 0 _ _ Hzero Hloop)
      as (n & Hn & Hcalls).
    intros Hres. exists n, (snd (Close (ex_it ex))).
    split; [destruct (ex_err ex); injection Hres as <-; reflexivity|].
    rewrite traced_Close. cbn [snd calls]. rewrite Hcalls, <- app_assoc.
    split; [reflexivity|lia].
  - unfold Paginate. fold req. rewrite Hshape, Hd. intros [= <-].
    exists 0%nat, (snd (Close t)). split; [reflexivity|].
    rewrite traced_Close. cbn [snd calls repeat app]. split; [reflexivity|lia].
Qed.

(** ** Pages *)

Lemma firstn_add {A : Type} (a b : nat) :
  forall l : list A, firstn (a + b) l = firstn a l ++ firstn b (skipn a l).
Proof.
  induction a as [|a IH]; intros l; [reflexivity|].
  destruct l as [|x l]; cbn [Nat.add firstn skipn app].
  - rewrite firstn_nil. reflexivity.
  - rewrite IH. reflexivity.
Qed.

Lemma nth_head_of_window {A : Type} (k b : nat) (d : A) :
  forall l : list A,
    (0 < b)%nat -> nth 0 (firstn b (skipn k l)) d = nth k l d.
Proof.
  induction k as [|k IH]; intros l Hb.
  - destruct b as [|b]; [lia|]. destruct l; reflexivity.
  - destruct l as [|x l]; cbn [skipn nth].
    + rewrite firstn_nil. reflexivity.
    + apply IH, Hb.
Qed.

(** X13.  When the whole iterator fits in the first page (offset 0 and no
    more records than the limit), [Paginate] stores exactly what [ReadAll]
    stores for the same iterator, and returns no [NextKey]. *)
Theorem Paginate_first_page_is_ReadAll {S : Type} `{Iterator S} (s s' : S)
    (rs : list (LoadResult S)) (req : PageRequest) (dest : ModelSlicePtr)
    (info : destInfo) (fuel : nat) :
  let limit := if Limit req =? 0 then 100 else Limit req in
  assertDest dest = inl info ->
  Implements (model_type (elemType info)) = true ->
  Offset req = 0 -> 0 <= Limit req -> limit < 2 ^ 64 ->
  Steps s rs s' ->
  Forall (@loaded_ok S) rs ->
  exhausted s' ->
  Z.of_nat (List.length rs) <= limit ->
  (List.length rs < fuel)%nat ->
  exists (res : PageResponse) (ids : slice RowID) (stored : ModelSlicePtr)
         (it1 it2 : option S),
    Paginate fuel (Some s) (Some req) dest =
      Some (mkPaginateResult (Some res) None stored it1) /\
    ReadAll fuel (Some s) dest =
      Some (Returns (mkReadAllResult ids None stored it2)) /\
    stored = commit dest (Some (map (@loaded S) rs)) /\
    NextKey res = None.
Proof.
  intros limit Hd Het Hoff Hlim Hmax Hsteps Hok Hdone Hfit Hfuel.
  destruct (Paginate_run s s' rs (Some req) dest info fuel Hd Het) as [s'' Hrun];
    fold limit; rewrite ?Hoff; try assumption; try lia; try reflexivity.
  { left. exact Hdone. }
  rewrite Hoff in Hrun. fold limit in Hrun.
  do 5 eexists. split; [exact Hrun|].
  split.
  { rewrite (ReadAll_unfold _ _ _ _ Hd).
    replace fuel with (List.length rs + Datatypes.S (fuel - List.length rs - 1))%nat
      by lia.
    rewrite (readAll_loop_steps _ Het rs s s' Hsteps Hok).
    rewrite (readAll_loop_done _ Het s' _ _ _ _ Hdone).
    cbn [rx_rowIDs rx_err rx_destRef rx_it].
    rewrite fold_append_Some. cbn [app Z.to_nat skipn].
    rewrite firstn_all2 by lia. reflexivity. }
  split.
  { cbn [Z.to_nat skipn]. rewrite firstn_all2 by lia. reflexivity. }
  cbn [NextKey]. apply nth_overflow. rewrite length_map. lia.
Qed.

(** X14.  Offset pages tile the iterator as long as [offset + l + l2] stays
    within [uint64].  For an iterator that yields the records [rs] and
    positive limits [l] and [l2] with [offset + l + l2 < 2 ^ 64], the page
    at [offset] with limit [l] followed by the page at [offset + l] with
    limit [l2] is the page at [offset] with limit [l + l2]; and the
    [NextKey] returned with the first page is the RowID of the record that
    opens the second. *)
Theorem Paginate_pages_are_contiguous {S : Type} `{Iterator S} (s s' : S)
    (rs : list (LoadResult S)) (offset l l2 : Z) (countTotal : bool)
    (dest : ModelSlicePtr) (info : destInfo) (fuel : nat) :
  assertDest dest = inl info ->
  Implements (model_type (elemType info)) = true ->
  0 <= offset -> 0 < l -> 0 < l2 -> offset + l + l2 < 2 ^ 64 ->
  Steps s rs s' ->
  Forall (@loaded_ok S) rs ->
  exhausted s' ->
  Z.of_nat (List.length rs) < 2 ^ 64 ->
  (List.length rs < fuel)%nat ->
  exists (res1 res2 res12 : PageResponse) (page1 page2 : list Model)
         (it1 it2 it12 : option S),
    Paginate fuel (Some s) (Some (mkPageRequest None offset l countTotal)) dest =
      Some (mkPaginateResult (Some res1) None (commit dest (Some page1)) it1) /\
    Paginate fuel (Some s)
      (Some (mkPageRequest None (offset + l) l2 countTotal)) dest =
      Some (mkPaginateResult (Some res2) None (commit dest (Some page2)) it2) /\
    Paginate fuel (Some s)
      (Some (mkPageRequest None offset (l + l2) countTotal)) dest =
      Some (mkPaginateResult (Some res12) None
              (commit dest (Some (page1 ++ page2))) it12) /\
    page2 = map (@loaded S)
              (firstn (Z.to_nat l2) (skipn (Z.to_nat (offset + l)) rs)) /\
    NextKey res1 =
      nth 0 (map (@lr_key S)
               (firstn (Z.to_nat l2) (skipn (Z.to_nat (offset + l)) rs))) None /\
    NextKey res12 = NextKey res2.
Proof.
  intros Hd Het Hoff Hl Hl2 Hmax Hsteps Hok Hdone Hn Hfuel.
  assert (Hoks : forall k, Forall (@loaded_ok S) (skipn k rs)).
  { intros k. rewrite <- (firstn_skipn k rs) in Hok.
    apply Forall_app in Hok. apply Hok. }
  assert (Hrun : forall o lim : Z,
             0 <= o -> 0 < lim -> o + lim < 2 ^ 64 ->
             exists s'' : S,
               Paginate fuel (Some s) (Some (mkPageRequest None o lim countTotal)) dest =
               Some (mkPaginateResult
                       (Some (mkPageResponse
                                (nth (Z.to_nat (o + lim)) (map (@lr_key S) rs) None)
                                (if countTotal && true
                                 then Z.of_nat (List.length rs) else 0)))
                       None
                       (commit dest
                          (Some (map (@loaded S)
                                   (firstn (Z.to_nat lim) (skipn (Z.to_nat o) rs)))))
                       (Some (snd (Close s''))))).
  { intros o lim Ho Hlim Hm.
    pose proof (Paginate_run s s' rs (Some (mkPageRequest None o lim countTotal))
                  dest info fuel) as Hp.
    cbv zeta in Hp. cbn [Limit Offset Key CountTotal len] in Hp.
    destruct (Z.eqb_spec lim 0) as [|_]; [lia|].
    change (0 =? 0) with true in Hp.
    apply Hp; try assumption; try lia.
    - cbn. apply andb_false_r.
    - left. exact Hdone.
    - apply Hoks. }
  destruct (Hrun offset l) as [s1 H1]; [lia|lia|lia|].
  destruct (Hrun (offset + l) l2) as [s2 H2]; [lia|lia|lia|].
  destruct (Hrun offset (l + l2)) as [s12 H12]; [lia|lia|lia|].
  do 8 eexists.
  split; [exact H1|]. split; [exact H2|].
  split.
  { rewrite H12. do 3 f_equal.
    replace (Z.to_nat (l + l2)) with (Z.to_nat l + Z.to_nat l2)%nat by lia.
    rewrite firstn_add, map_app, skipn_skipn.
    replace (Z.to_nat l + Z.to_nat offset)%nat with (Z.to_nat (offset + l)) by lia.
    reflexivity. }
  split; [reflexivity|].
  cbn [NextKey]. split.
  - rewrite <- firstn_map, <- skipn_map.
    rewrite nth_head_of_window by lia. reflexivity.
  - replace (offset + (l + l2)) with (offset + l + l2) by lia. reflexivity.
Qed.
End Orm.

(** * The operations on concrete inputs

    Records are byte strings decoded by [demoUnmarshal]; the zero record is
    the empty string; destinations point to a slice of [Row] structs. *)

(** C1.  The first result of the iterator is a decode error.  With offset 1
    it lies within the offset window: [Paginate] drops it and returns no
    error, the next record being served as the page.  With offset 0 the same
    error is returned to the caller. *)
Theorem Paginate_drops_error_in_offset_window :
  let it : scripted (list Byte.byte) :=
    [(Some [Byte.x01], Some (DecodeError 1), []);
     (Some [Byte.x02], None, [Byte.x0a])] in
  let dest := Boxed (PtrTo (SliceOf (StructType "Row"))) (Some None) in
  Paginate demoImplements [] 3 (Some it) (Some (mkPageRequest None 1 1 false)) dest =
    Some (mkPaginateResult (Some (mkPageResponse None 0)) None
            (Boxed (PtrTo (SliceOf (StructType "Row"))) (Some (Some [[Byte.x0a]])))
            (Some [])) /\
  Paginate demoImplements [] 3 (Some it) (Some (mkPageRequest None 0 1 false)) dest =
    Some (mkPaginateResult None (Some (DecodeError 1)) dest
            (Some [(Some [Byte.x02], None, [Byte.x0a])])).
Proof. split; reflexivity. Qed.

(** C2.  A request with offset 1 and a non-nil key on an instrumented
    iterator: [Paginate] returns the plain error and the iterator has
    received no call at all, neither [LoadNext] nor [Close].  A request
    refused later, here for its nil destination, does close the iterator. *)
Theorem Paginate_request_shape_skips_close :
  let it : Traced (scripted (list Byte.byte)) :=
    mkTraced [(Some [Byte.x01], None, [Byte.x0a])] [] in
  let dest := Boxed (PtrTo (SliceOf (StructType "Row"))) (Some None) in
  Paginate demoImplements [] 3 (Some it)
    (Some (mkPageRequest (Some [Byte.x01]) 1 0 false)) dest =
    Some (mkPaginateResult None
            (Some (Errorf "invalid request, either offset or key is expected, got both"))
            dest (Some it)) /\
  calls it = [] /\
  Paginate demoImplements [] 3 (Some it) None (NilInterface _) =
    Some (mkPaginateResult None
            (Some (Wrap (Registered ErrArgument) "destination must not be nil"))
            (NilInterface _)
            (Some (mkTraced [(Some [Byte.x01], None, [Byte.x0a])] [CallClose]))).
Proof.
  intros it dest. split; [|split; reflexivity].
  apply Paginate_request_shape; [reflexivity|discriminate].
Qed.

(** C3, counterexample.  The parent is a single-value iterator that holds a
    record, and [max] is 1.  A [LoadNext] with a nil destination fails with
    [ErrArgument], yet the remaining count drops from 1 to 0: the next call
    reports [ErrIteratorDone] although no record was yielded and the parent
    still holds its record.  Likewise with [max] 2 over a parent whose second
    result is a decode error: the failed load brings the count to 0 and the
    third record is never reached. *)
Lemma limited_counts_failed_loads :
  let H := singleValue_Iterator demoUnmarshal in
  let parent := NewSingleValueIterator (Some [Byte.x01]) (Some [Byte.x0a]) in
  let i := mkLimited 1 parent in
  let r := LoadNext i None in
  let script : scripted (list Byte.byte) :=
    [(Some [Byte.x01], None, [Byte.x0a]);
     (Some [Byte.x02], Some (DecodeError 1), []);
     (Some [Byte.x03], None, [Byte.x0c])] in
  let j := mkLimited 2 script in
  (LimitIterator (Some parent) 1 = Returns i /\
   lr_err (LoadNext parent (Some [])) = None /\
   Is ErrArgument (lr_err r) = true /\
   remainingCount i = 1 /\
   remainingCount (lr_next r) = 0 /\
   lr_err (LoadNext (lr_next r) (Some [])) = Some (Registered ErrIteratorDone) /\
   lr_err (LoadNext (parentIterator (lr_next r)) (Some [])) = None) /\
  (LimitIterator (Some script) 2 = Returns j /\
   replies j [Some []; Some []; Some []] =
     [(Some [Byte.x01], None, Some [Byte.x0a]);
      (Some [Byte.x02], Some (DecodeError 1), Some []);
      (None, Some (Registered ErrIteratorDone), Some [])] /\
   remainingCount (drive j [Some []; Some []]) = 0).
Proof. repeat split. Qed.

(** C3, on a concrete input: a limit of 2 on a parent with three records. *)
Lemma limited_iterator_spec_witness :
  let parent : Traced (scripted (list Byte.byte)) :=
    mkTraced [(Some [Byte.x01], None, [Byte.x0a]);
              (Some [Byte.x02], None, [Byte.x0b]);
              (Some [Byte.x03], None, [Byte.x0c])] [] in
  let ds := [Some []; Some []] in
  exists i : LimitedIterator (Traced (scripted (list Byte.byte))),
    LimitIterator (Some parent) 2 = Returns i /\
    replies i ds =
      [(Some [Byte.x01], None, Some [Byte.x0a]);
       (Some [Byte.x02], None, Some [Byte.x0b])] /\
    calls (parentIterator (drive i ds)) = [CallLoadNext; CallLoadNext] /\
    lr_err (LoadNext (drive i ds) (Some [])) = Some (Registered ErrIteratorDone) /\
    lr_next (LoadNext (drive i ds) (Some [])) = drive i ds.
Proof.
  intros parent ds.
  destruct (limited_iterator_spec (list Byte.byte) (scripted (list Byte.byte)) _
              parent 2 ds)
    as (i & Hi & Hrep & _ & _ & Hcalls & Hdone & _).
  - lia.
  - reflexivity.
  - repeat constructor.
  - exists i. split; [exact Hi|]. split; [exact Hrep|]. split; [exact Hcalls|].
    rewrite (Hdone (Some [])). split; reflexivity.
Defined.

(** C4, counterexample.  A single-value iterator built from an empty but
    non-nil buffer: the first [LoadNext] decodes the empty buffer and returns
    the RowID, it does not report [ErrIteratorDone]. *)
Lemma single_value_empty_buffer_is_decoded :
  let H := singleValue_Iterator demoUnmarshal in
  let it := NewSingleValueIterator (Some [Byte.x01]) (Some []) in
  len (sv_val it) = 0 /\
  LoadNext it (Some [Byte.x0a]) =
    mkLoad (Some [Byte.x01]) None (Some []) (mkSingleValue (Some [Byte.x01]) (Some []) true) /\
  Is ErrIteratorDone (lr_err (LoadNext it (Some [Byte.x0a]))) = false.
Proof. repeat split. Qed.

(** C9, counterexample.  A single-value iterator built from the nil buffer
    reports [ErrIteratorDone]; the next [LoadNext], with a nil destination,
    reports [ErrArgument] and not [ErrIteratorDone]. *)
Lemma single_value_done_then_argument_error :
  let H := singleValue_Iterator demoUnmarshal in
  let it := NewSingleValueIterator (Some [Byte.x01]) None in
  let r := LoadNext it (Some []) in
  Is ErrIteratorDone (lr_err r) = true /\
  Is ErrIteratorDone (lr_err (LoadNext (lr_next r) None)) = false /\
  Is ErrArgument (lr_err (LoadNext (lr_next r) None)) = true.
Proof. repeat split. Qed.

(** C9, on a concrete input: a limited iterator over a single-value iterator
    whose record has been handed out. *)
Lemma exhaustion_is_idempotent_witness :
  let H := singleValue_Iterator demoUnmarshal in
  let parent := NewSingleValueIterator (Some [Byte.x01]) (Some [Byte.x0a]) in
  let i := lr_next (LoadNext (mkLimited 5 parent) (Some [])) in
  Is ErrIteratorDone (lr_err (LoadNext i (Some []))) = true /\
  Is ErrIteratorDone
    (lr_err (LoadNext (drive (lr_next (LoadNext i (Some []))) [None; Some []])
               (Some [Byte.x0b]))) = true.
Proof.
  intros H parent i.
  assert (Hfirst : Is ErrIteratorDone (lr_err (LoadNext i (Some []))) = true)
    by reflexivity.
  split; [exact Hfirst|].
  destruct (exhaustion_is_idempotent (list Byte.byte) demoUnmarshal)
    as [Hsingle Hlimited].
  apply (Hlimited (@non_nil (list Byte.byte)) singleValue H Hsingle i (Some [])
           Hfirst [None; Some []] (Some [Byte.x0b])).
  discriminate.
Defined.

(** C5, on a concrete input: 250 records, the [n]-th of which has a RowID of
    [n] bytes. *)
Lemma Paginate_nil_request_witness :
  let it : scripted (list Byte.byte) :=
    map (fun n => (Some (repeat Byte.x01 n), None, repeat Byte.x0a n)) (seq 1 250) in
  let dest := Boxed (PtrTo (SliceOf (StructType "Row"))) (Some None) in
  exists r : PaginateResult (list Byte.byte) (scripted (list Byte.byte)),
    Paginate demoImplements [] 251 (Some it) None dest = Some r /\
    pg_err r = None /\
    pg_res r = Some (mkPageResponse (Some (repeat Byte.x01 101)) 250) /\
    pg_dest r =
      Boxed (PtrTo (SliceOf (StructType "Row")))
        (Some (Some (map (fun n => repeat Byte.x0a n) (seq 1 100)))).
Proof.
  intros it dest.
  destruct (Paginate_nil_request (list Byte.byte) demoImplements [] it []
              (scripted_results [] it) dest
              (mkDestInfo (StructType "Row") None (Some [])) 251)
    as [[s'' Hrun] _].
  - reflexivity.
  - reflexivity.
  - apply scripted_Steps. vm_compute. reflexivity.
  - apply scripted_loaded_ok. vm_compute. reflexivity.
  - apply scripted_exhausted.
  - vm_compute. reflexivity.
  - lia.
  - eexists. split; [exact Hrun|]. split; [reflexivity|].
    split; vm_compute; reflexivity.
Defined.



(** X22, on concrete inputs: an iterator with two records, and one with
    none. *)
Lemma ReadAll_commits_on_done_witness :
  let it : scripted (list Byte.byte) :=
    [(Some [Byte.x01], None, [Byte.x0a]); (Some [Byte.x02], None, [Byte.x0b])] in
  let dest := Boxed (PtrTo (SliceOf (StructType "Row"))) (Some None) in
  ReadAll demoImplements [] 3 (Some it) dest =
    Some (Returns
            (mkReadAllResult (Some [Some [Byte.x01]; Some [Byte.x02]]) None
               (Boxed (PtrTo (SliceOf (StructType "Row")))
                  (Some (Some [[Byte.x0a]; [Byte.x0b]])))
               (Some []))) /\
  ReadAll demoImplements [] 3 (Some (@nil (RowID * option error * list Byte.byte))) dest =
    Some (Returns
            (mkReadAllResult None None
               (Boxed (PtrTo (SliceOf (StructType "Row"))) (Some (Some [])))
               (Some []))).
Proof.
  intros it dest. split.
  - refine (proj1 (ReadAll_commits_on_done (list Byte.byte) demoImplements []
                      it [] (scripted_results [] it) dest
                      (mkDestInfo (StructType "Row") None (Some [])) 3
                      _ _ _ _ _ _)).
    + reflexivity.
    + reflexivity.
    + apply scripted_Steps. reflexivity.
    + apply scripted_loaded_ok. reflexivity.
    + apply scripted_exhausted.
    + cbn. lia.
  - refine (proj2 (ReadAll_commits_on_done (list Byte.byte) demoImplements []
                      [] [] [] dest
                      (mkDestInfo (StructType "Row") None (Some [])) 3
                      _ _ _ _ _ _) _).
    + reflexivity.
    + reflexivity.
    + constructor.
    + constructor.
    + apply scripted_exhausted.
    + cbn. lia.
    + reflexivity.
Defined.

(** C7.  A destination that points to a slice of [codec.ProtoMarshaler]
    itself passes [assertDest], as the interface type implements itself.
    [ReadAll] on it over an iterator without records does not return the nil
    RowID list with the empty slice committed: the pointer to the interface
    value it allocates has no methods, and the unchecked type assertion in
    the argument of the first [LoadNext] panics, however many rounds the loop
    is given.  [Paginate] checks the same assertion and returns an error
    wrapping [ErrArgument] instead. *)
Theorem ReadAll_panics_on_interface_elements :
  let it : scripted (list Byte.byte) := [] in
  let elem := InterfaceType "codec.ProtoMarshaler" in
  let dest := Boxed (PtrTo (SliceOf elem)) (Some None) in
  assertDest demoImplements dest = inl (mkDestInfo elem None (Some [])) /\
  demoImplements elem = true /\
  demoImplements (model_type elem) = false /\
  lr_err (LoadNext it (Some [])) = Some (Registered ErrIteratorDone) /\
  (forall fuel : nat,
      ReadAll demoImplements [] (Datatypes.S fuel) (Some it) dest =
        Some (Panics "interface conversion: missing method")) /\
  Paginate demoImplements [] 1 (Some it) None dest =
    Some (mkPaginateResult None
            (Some (Wrap (Registered ErrArgument)
                     (String.append (type_string elem)
                        " should implement codec.ProtoMarshaler")))
            dest (Some [])).
Proof.
  intros it elem dest. repeat split.
Qed.

(** C8, on concrete inputs: a nil destination, a slice passed by value, a
    pointer to a struct, a pointer to a slice of integers, and a pointer to a
    slice of [Row] structs. *)
Lemma assertDest_spec_witness :
  ArgumentError (assertDest demoImplements (NilInterface (list Byte.byte))) /\
  ArgumentError
    (assertDest demoImplements
       (Boxed (SliceOf (StructType "Row")) (@None (slice (list Byte.byte))))) /\
  ArgumentError
    (assertDest demoImplements
       (Boxed (PtrTo (StructType "Row")) (Some (@None (list (list Byte.byte)))))) /\
  ArgumentError
    (assertDest demoImplements
       (Boxed (PtrTo (SliceOf BasicUint64)) (Some (@None (list (list Byte.byte)))))) /\
  assertDest demoImplements
    (Boxed (PtrTo (SliceOf (StructType "Row"))) (Some (Some [[Byte.x0a]]))) =
    inl (mkDestInfo (StructType "Row") (Some [[Byte.x0a]]) (Some [])).
Proof.
  destruct (assertDest_spec (list Byte.byte) demoImplements)
    as (Hnil & Hptr & Hslice & Helem & Hok & _).
  split; [exact Hnil|].
  split; [apply Hptr; discriminate|].
  split; [apply Hslice; discriminate|].
  split; [apply Helem; reflexivity|].
  apply Hok. right. reflexivity.
Defined.

(** C10, counterexample.  Limit 1 with [CountTotal] over an iterator whose
    third result is a decode error: the page is committed when the second
    record is read, the scan goes on to count, and the error is returned with
    the destination already overwritten. *)
Lemma Paginate_error_after_commit :
  let it : scripted (list Byte.byte) :=
    [(Some [Byte.x01], None, [Byte.x0a]);
     (Some [Byte.x02], None, [Byte.x0b]);
     (Some [Byte.x03], Some (DecodeError 1), [])] in
  let dest := Boxed (PtrTo (SliceOf (StructType "Row"))) (Some None) in
  exists r : PaginateResult (list Byte.byte) (scripted (list Byte.byte)),
    Paginate demoImplements [] 4 (Some it) (Some (mkPageRequest None 0 1 true)) dest
      = Some r /\
    pg_err r = Some (DecodeError 1) /\
    pg_dest r =
      Boxed (PtrTo (SliceOf (StructType "Row"))) (Some (Some [[Byte.x0a]])) /\
    pg_dest r <> dest.
Proof.
  intros it dest. eexists. split; [reflexivity|].
  split; [reflexivity|]. split; [reflexivity|]. discriminate.
Qed.

(** C10, on concrete inputs: a decode error as first result, for [ReadAll]
    and for [Paginate] without [CountTotal]. *)
Lemma destination_untouched_on_error_witness :
  let it : scripted (list Byte.byte) :=
    [(Some [Byte.x01], Some (DecodeError 1), [])] in
  let dest := Boxed (PtrTo (SliceOf (StructType "Row"))) (Some (Some [[Byte.x0f]])) in
  (exists r, ReadAll demoImplements [] 2 (Some it) dest = Some (Returns r) /\
             ra_err r = Some (DecodeError 1) /\ ra_dest r = dest) /\
  (exists r, Paginate demoImplements [] 2 (Some it)
               (Some (mkPageRequest None 0 1 false)) dest = Some r /\
             pg_err r = Some (DecodeError 1) /\ pg_dest r = dest).
Proof.
  intros it dest.
  destruct (destination_untouched_on_error (list Byte.byte) demoImplements []
              (Some it) dest 2) as [Hread Hpage].
  split.
  - eexists. split; [reflexivity|]. split; [reflexivity|].
    apply Hread; [reflexivity|discriminate].
  - eexists. split; [reflexivity|]. split; [reflexivity|].
    apply (Hpage (Some (mkPageRequest None 0 1 false)));
      [reflexivity|discriminate|left; reflexivity].
Defined.

(** * The further properties on concrete inputs *)

(** X3, on a concrete input: one record, then a decode error. *)
Lemma ReadAll_returns_first_error_witness :
  let it : scripted (list Byte.byte) :=
    [(Some [Byte.x01], None, [Byte.x0a]);
     (Some [Byte.x02], Some (DecodeError 1), [])] in
  let dest := Boxed (PtrTo (SliceOf (StructType "Row"))) (Some (Some [[Byte.x0f]])) in
  ReadAll demoImplements [] 3 (Some it) dest =
    Some (Returns (mkReadAllResult None (Some (DecodeError 1)) dest (Some []))).
Proof.
  intros it dest.
  refine (ReadAll_returns_first_error (list Byte.byte) demoImplements [] it
            [(Some [Byte.x02], Some (DecodeError 1), [])]
            [LoadNext it (Some [])] (DecodeError 1) dest
            (mkDestInfo (StructType "Row") (Some [[Byte.x0f]]) (Some [])) 3
            _ _ _ _ _ _ _).
  - reflexivity.
  - reflexivity.
  - apply Steps_cons; [reflexivity|apply Steps_nil].
  - repeat constructor.
  - reflexivity.
  - reflexivity.
  - cbn. lia.
Defined.

(** X4, on a concrete input: offset 1, limit 5, two records, then a decode
    error. *)
Lemma Paginate_returns_error_past_offset_witness :
  let it : scripted (list Byte.byte) :=
    [(Some [Byte.x01], None, [Byte.x0a]);
     (Some [Byte.x02], None, [Byte.x0b]);
     (Some [Byte.x03], Some (DecodeError 1), [])] in
  let dest := Boxed (PtrTo (SliceOf (StructType "Row"))) (Some (Some [[Byte.x0f]])) in
  Paginate demoImplements [] 4 (Some it) (Some (mkPageRequest None 1 5 true)) dest =
    Some (mkPaginateResult None (Some (DecodeError 1)) dest (Some [])).
Proof.
  intros it dest.
  refine (Paginate_returns_error_past_offset (list Byte.byte) demoImplements []
            it [(Some [Byte.x03], Some (DecodeError 1), [])]
            [LoadNext it (Some []); LoadNext (tl it) (Some [])]
            (DecodeError 1) (mkPageRequest None 1 5 true) dest
            (mkDestInfo (StructType "Row") (Some [[Byte.x0f]]) (Some [])) 4
            _ _ _ _ _ _ _ _ _ _ _ _ _).
  - reflexivity.
  - reflexivity.
  - cbn. lia.
  - cbn. lia.
  - cbn. lia.
  - reflexivity.
  - apply Steps_cons; [reflexivity|].
    apply Steps_cons; [reflexivity|apply Steps_nil].
  - repeat constructor.
  - cbn. lia.
  - cbn. lia.
  - reflexivity.
  - reflexivity.
  - cbn. lia.
Defined.

(** X5, on a concrete input: offset 2 and limit 1 over the invalid
    iterator. *)
Lemma invalid_iterator_is_reported_witness :
  let dest := Boxed (PtrTo (SliceOf (StructType "Row")))
                (Some (Some [[Byte.x0f]])) in
  ReadAll demoImplements [] 3 (Some NewInvalidIterator) dest =
    Some (Returns (mkReadAllResult None (Some (Registered ErrIteratorInvalid))
                     dest (Some tt))) /\
  Paginate demoImplements [] 3 (Some NewInvalidIterator)
    (Some (mkPageRequest None 2 1 false)) dest =
    Some (mkPaginateResult None (Some (Registered ErrIteratorInvalid)) dest
            (Some tt)).
Proof.
  intros dest.
  apply (invalid_iterator_is_reported (list Byte.byte) demoImplements []
           [None; Some []] (Some []) (mkPageRequest None 2 1 false) dest
           (mkDestInfo (StructType "Row") (Some [[Byte.x0f]]) (Some [])) 3).
  - reflexivity.
  - reflexivity.
  - cbn. lia.
  - reflexivity.
  - cbn. lia.
Defined.


(** X7, on a concrete input: a limit of 2, four calls, a parent with one
    record. *)
Lemma limited_iterator_any_calls_witness :
  let parent : Traced (scripted (list Byte.byte)) :=
    mkTraced [(Some [Byte.x01], None, [Byte.x0a])] [] in
  let ds := [Some []; None; Some []; Some []] in
  exists i : LimitedIterator (Traced (scripted (list Byte.byte))),
    LimitIterator (Some parent) 2 = Returns i /\
    replies i ds =
      [(Some [Byte.x01], None, Some [Byte.x0a]);
       (None, Some (Registered ErrIteratorDone), None);
       (None, Some (Registered ErrIteratorDone), Some []);
       (None, Some (Registered ErrIteratorDone), Some [])] /\
    calls (parentIterator (drive i ds)) = [CallLoadNext; CallLoadNext].
Proof.
  intros parent ds.
  destruct (limited_iterator_any_calls (list Byte.byte)
              (scripted (list Byte.byte)) _ parent 2 ds)
    as (i & Hi & Hrep & Hcalls); [lia|].
  exists i. split; [exact Hi|]. split; [exact Hrep|exact Hcalls].
Defined.

(** X8, on a concrete input: a limit of 1 on top of a limit of 3. *)
Lemma nested_limits_take_the_minimum_witness :
  let p : scripted (list Byte.byte) :=
    [(Some [Byte.x01], None, [Byte.x0a]);
     (Some [Byte.x02], None, [Byte.x0b]);
     (Some [Byte.x03], None, [Byte.x0c])] in
  let ds := [Some []; Some []; Some []] in
  replies (mkLimited 1 (mkLimited 3 p)) ds = replies (mkLimited 1 p) ds /\
  replies (mkLimited 1 p) ds =
    [(Some [Byte.x01], None, Some [Byte.x0a]);
     (None, Some (Registered ErrIteratorDone), Some []);
     (None, Some (Registered ErrIteratorDone), Some [])].
Proof.
  intros p ds. split; [|reflexivity].
  apply (nested_limits_take_the_minimum (list Byte.byte)
           (scripted (list Byte.byte)) _ ds 3 1 p); lia.
Defined.

(** X9, on a concrete input: a limit of 2 over three records. *)
Lemma ReadAll_through_limit_witness :
  let p : scripted (list Byte.byte) :=
    [(Some [Byte.x01], None, [Byte.x0a]);
     (Some [Byte.x02], None, [Byte.x0b]);
     (Some [Byte.x03], None, [Byte.x0c])] in
  let dest := Boxed (PtrTo (SliceOf (StructType "Row"))) (Some None) in
  exists i i' : LimitedIterator (scripted (list Byte.byte)),
    LimitIterator (Some p) 2 = Returns i /\
    ReadAll demoImplements [] 4 (Some i) dest =
      Some (Returns
              (mkReadAllResult (Some [Some [Byte.x01]; Some [Byte.x02]]) None
                 (Boxed (PtrTo (SliceOf (StructType "Row")))
                    (Some (Some [[Byte.x0a]; [Byte.x0b]])))
                 (Some i'))).
Proof.
  intros p dest.
  destruct (ReadAll_through_limit (list Byte.byte) demoImplements [] p []
              (scripted_results [] p) 2 dest
              (mkDestInfo (StructType "Row") None (Some [])) 4)
    as (i & i' & Hi & Hread).
  - reflexivity.
  - reflexivity.
  - lia.
  - apply scripted_Steps. reflexivity.
  - apply scripted_loaded_ok. reflexivity.
  - apply scripted_exhausted.
  - cbn. lia.
  - exists i, i'. split; [exact Hi|exact Hread].
Defined.

(** X10, on a concrete input: two records, three loads, one close. *)
Lemma ReadAll_closes_once_witness :
  let t : Traced (scripted (list Byte.byte)) :=
    mkTraced [(Some [Byte.x01], None, [Byte.x0a]);
              (Some [Byte.x02], None, [Byte.x0b])] [] in
  let dest := Boxed (PtrTo (SliceOf (StructType "Row"))) (Some None) in
  exists (r : ReadAllResult (list Byte.byte) (Traced (scripted (list Byte.byte))))
         (n : nat) (t' : Traced (scripted (list Byte.byte))),
    ReadAll demoImplements [] 5 (Some t) dest = Some (Returns r) /\
    ra_it r = Some t' /\
    calls t' = repeat CallLoadNext n ++ [CallClose] /\
    (1 <= n <= 5)%nat.
Proof.
  intros t dest.
  let v := eval vm_compute in (ReadAll demoImplements [] 5 (Some t) dest) in
  match v with
  | Some (Returns ?r) =>
      assert (Heq : ReadAll demoImplements [] 5 (Some t) dest = Some (Returns r))
        by reflexivity;
      destruct (ReadAll_closes_once (list Byte.byte) demoImplements [] t dest 5 r
                  Heq) as (n & t' & Hit & Hcalls & Hn & _ & Hpos);
      exists r, n, t'
  end.
  split; [reflexivity|]. split; [exact Hit|]. split; [exact Hcalls|].
  split; [apply Hpos; eexists; reflexivity|exact Hn].
Defined.

(** X11, on a concrete input: a page of one record out of two, with a total:
    three loads, one close. *)
Lemma Paginate_closes_once_witness :
  let t : Traced (scripted (list Byte.byte)) :=
    mkTraced [(Some [Byte.x01], None, [Byte.x0a]);
              (Some [Byte.x02], None, [Byte.x0b])] [] in
  let dest := Boxed (PtrTo (SliceOf (StructType "Row"))) (Some None) in
  exists (r : PaginateResult (list Byte.byte) (Traced (scripted (list Byte.byte))))
         (n : nat) (t' : Traced (scripted (list Byte.byte))),
    Paginate demoImplements [] 5 (Some t) (Some (mkPageRequest None 0 1 true)) dest
      = Some r /\
    pg_it r = Some t' /\
    calls t' = repeat CallLoadNext n ++ [CallClose] /\
    (n <= 5)%nat.
Proof.
  intros t dest.
  let v := eval vm_compute in
    (Paginate demoImplements [] 5 (Some t) (Some (mkPageRequest None 0 1 true)) dest) in
  match v with
  | Some ?r =>
      assert (Heq : Paginate demoImplements [] 5 (Some t)
                      (Some (mkPageRequest None 0 1 true)) dest = Some r)
        by reflexivity;
      destruct (Paginate_closes_once (list Byte.byte) demoImplements [] t
                  (Some (mkPageRequest None 0 1 true)) dest 5 r eq_refl Heq)
        as (n & t' & Hit & Hcalls & Hn);
      exists r, n, t'
  end.
  split; [reflexivity|]. split; [exact Hit|]. split; [exact Hcalls|exact Hn].
Defined.

(** X12, on a concrete input: a page of one record out of four, without a
    total: at most two loads. *)
Lemma Paginate_scan_is_bounded_witness :
  let t : Traced (scripted (list Byte.byte)) :=
    mkTraced [(Some [Byte.x01], None, [Byte.x0a]);
              (Some [Byte.x02], None, [Byte.x0b]);
              (Some [Byte.x03], None, [Byte.x0c]);
              (Some [Byte.x04], None, [Byte.x0d])] [] in
  let dest := Boxed (PtrTo (SliceOf (StructType "Row"))) (Some None) in
  exists (r : PaginateResult (list Byte.byte) (Traced (scripted (list Byte.byte))))
         (n : nat) (t' : Traced (scripted (list Byte.byte))),
    Paginate demoImplements [] 9 (Some t) (Some (mkPageRequest None 0 1 false)) dest
      = Some r /\
    pg_it r = Some t' /\
    calls t' = repeat CallLoadNext n ++ [CallClose] /\
    Z.of_nat n <= 2.
Proof.
  intros t dest.
  let v := eval vm_compute in
    (Paginate demoImplements [] 9 (Some t) (Some (mkPageRequest None 0 1 false)) dest) in
  match v with
  | Some ?r =>
      assert (Heq : Paginate demoImplements [] 9 (Some t)
                      (Some (mkPageRequest None 0 1 false)) dest = Some r)
        by reflexivity;
      destruct (Paginate_scan_is_bounded (list Byte.byte) demoImplements [] t
                  (Some (mkPageRequest None 0 1 false)) dest 9 r)
        as (n & t' & Hit & Hcalls & Hn);
      [reflexivity|cbn; lia|cbn; lia|cbn; lia|left; reflexivity|exact Heq|];
      exists r, n, t'
  end.
  split; [reflexivity|]. split; [exact Hit|]. split; [exact Hcalls|exact Hn].
Defined.

(** X13, on a concrete input: two records and a limit of 5. *)
Lemma Paginate_first_page_is_ReadAll_witness :
  let it : scripted (list Byte.byte) :=
    [(Some [Byte.x01], None, [Byte.x0a]); (Some [Byte.x02], None, [Byte.x0b])] in
  let dest := Boxed (PtrTo (SliceOf (StructType "Row"))) (Some None) in
  exists (res : PageResponse) (ids : slice RowID)
         (stored : ModelSlicePtr (list Byte.byte))
         (it1 it2 : option (scripted (list Byte.byte))),
    Paginate demoImplements [] 3 (Some it) (Some (mkPageRequest None 0 5 false)) dest =
      Some (mkPaginateResult (Some res) None stored it1) /\
    ReadAll demoImplements [] 3 (Some it) dest =
      Some (Returns (mkReadAllResult ids None stored it2)) /\
    stored = Boxed (PtrTo (SliceOf (StructType "Row")))
               (Some (Some [[Byte.x0a]; [Byte.x0b]])) /\
    NextKey res = None.
Proof.
  intros it dest.
  destruct (Paginate_first_page_is_ReadAll (list Byte.byte) demoImplements []
              it [] (scripted_results [] it) (mkPageRequest None 0 5 false) dest
              (mkDestInfo (StructType "Row") None (Some [])) 3)
    as (res & ids & stored & it1 & it2 & Hp & Hr & Hs & Hk).
  - reflexivity.
  - reflexivity.
  - reflexivity.
  - cbn. lia.
  - cbn. lia.
  - apply scripted_Steps. reflexivity.
  - apply scripted_loaded_ok. reflexivity.
  - apply scripted_exhausted.
  - cbn. lia.
  - cbn. lia.
  - exists res, ids, stored, it1, it2.
    split; [exact Hp|]. split; [exact Hr|]. split; [exact Hs|exact Hk].
Defined.

(** X14, on a concrete input: five records, the pages at offset 1 and 3 with
    limit 2, and the page at offset 1 with limit 4. *)
Lemma Paginate_pages_are_contiguous_witness :
  let it : scripted (list Byte.byte) :=
    [(Some [Byte.x01], None, [Byte.x0a]);
     (Some [Byte.x02], None, [Byte.x0b]);
     (Some [Byte.x03], None, [Byte.x0c]);
     (Some [Byte.x04], None, [Byte.x0d]);
     (Some [Byte.x05], None, [Byte.x0e])] in
  let dest := Boxed (PtrTo (SliceOf (StructType "Row"))) (Some None) in
  exists (res1 res2 res12 : PageResponse) (page1 page2 : list (list Byte.byte))
         (it1 it2 it12 : option (scripted (list Byte.byte))),
    Paginate demoImplements [] 6 (Some it) (Some (mkPageRequest None 1 2 false)) dest =
      Some (mkPaginateResult (Some res1) None (commit dest (Some page1)) it1) /\
    Paginate demoImplements [] 6 (Some it) (Some (mkPageRequest None 3 2 false)) dest =
      Some (mkPaginateResult (Some res2) None (commit dest (Some page2)) it2) /\
    Paginate demoImplements [] 6 (Some it) (Some (mkPageRequest None 1 4 false)) dest =
      Some (mkPaginateResult (Some res12) None
              (commit dest (Some (page1 ++ page2))) it12) /\
    page2 = [[Byte.x0d]; [Byte.x0e]] /\
    NextKey res1 = Some [Byte.x04] /\
    NextKey res12 = NextKey res2.
Proof.
  intros it dest.
  destruct (Paginate_pages_are_contiguous (list Byte.byte) demoImplements []
              it [] (scripted_results [] it) 1 2 2 false dest
              (mkDestInfo (StructType "Row") None (Some [])) 6)
    as (res1 & res2 & res12 & page1 & page2 & it1 & it2 & it12 &
        H1 & H2 & H12 & Hp2 & Hk & Hk');
    [first [ reflexivity | cbn; lia
           | apply scripted_Steps; reflexivity
           | apply scripted_loaded_ok; reflexivity ] .. |].
  exists res1, res2, res12, page1, page2, it1, it2, it12.
  split; [exact H1|]. split; [exact H2|]. split; [exact H12|].
  split; [exact Hp2|]. split; [exact Hk|exact Hk'].
Defined.

(** * RDF helpers: properties *)

Unset Implicit Arguments.

Lemma Yields_step {T S : Type} `{Rdf.Cursor S} (get : S -> option T * S)
    (s s2 : S) (t : option T) (l : list (option T)) :
  fst (Rdf.Next s) = true ->
  get (snd (Rdf.Next s)) = (t, s2) ->
  Rdf.Yields get s2 l ->
  Rdf.Yields get s (t :: l).
Proof.
  intros Hnext Hget Hrest.
  pose proof (@Rdf.Yields_cons _ _ _ get s l Hnext) as Hc.
  rewrite Hget in Hc. cbn [fst snd] in Hc. apply Hc, Hrest.
Qed.

Lemma GetOneTerm_of_yields {T S : Type} `{Rdf.TermIterator T S} (s : S)
    (l : list (option T)) :
  Rdf.Yields Rdf.Term s l ->
  exists s' : S,
    Rdf.GetOneTerm (Some s) =
    Returns
      (match l with
       | [] => (None, None)
       | [t] => (t, None)
       | _ :: _ :: _ => (None, Some (Errorf "expected only one value"))
       end, Rdf.Close s').
Proof.
  intros Hy. unfold Rdf.GetOneTerm.
  inversion Hy as [s0 Hnone|s0 l0 Hsome Hrest]; subst.
  - destruct (Rdf.Next s) as [more s1]. cbn [fst] in Hnone. subst more.
    exists s1. reflexivity.
  - destruct (Rdf.Next s) as [more s1]. cbn [fst snd] in *. subst more.
    cbn [negb]. destruct (Rdf.Term s1) as [val s2]. cbn [fst snd] in *.
    inversion Hrest as [s3 Hnone|s3 l3 Hsome Hrest']; subst.
    + destruct (Rdf.Next s2) as [more2 s3]. cbn [fst] in Hnone. subst more2.
      exists s3. reflexivity.
    + destruct (Rdf.Next s2) as [more2 s3]. cbn [fst] in Hsome. subst more2.
      exists s3. reflexivity.
Qed.

(** X15.  [GetOneTerm] on an iterator with no term returns a nil term and no
    error; with exactly one term it returns that term; with two or more it
    returns a nil term and the error "expected only one value".  A nil
    iterator makes it panic. *)
Theorem GetOneTerm_spec {T S : Type} `{Rdf.TermIterator T S} (s : S)
    (l : list (option T)) :
  Rdf.Yields Rdf.Term s l ->
  (exists s' : S,
      Rdf.GetOneTerm (Some s) =
      Returns
        (match l with
         | [] => (None, None)
         | [t] => (t, None)
         | _ :: _ :: _ => (None, Some (Errorf "expected only one value"))
         end, Rdf.Close s')) /\
  (exists msg, Rdf.GetOneTerm (T := T) (@None S) = Panics msg).
Proof.
  intros Hy. split; [apply GetOneTerm_of_yields, Hy|].
  eexists. reflexivity.
Qed.

(** X16.  Whatever the iterator, [GetOneTerm] closes it exactly once, as its
    last call; before that it calls [Next] once when the iterator is empty,
    and otherwise [Next], [Term], [Next]: the term is read at most once and
    nothing is read past the second element. *)
Theorem GetOneTerm_closes_once {T S : Type} `{Rdf.TermIterator T S}
    (t : Rdf.Traced S) :
  exists (res : option T * option error) (t' : Rdf.Traced S),
    Rdf.GetOneTerm (Some t) = Returns (res, t') /\
    (Rdf.calls t' = Rdf.calls t ++ [Rdf.CallNext; Rdf.CallClose] /\
     fst (Rdf.Next (Rdf.inner t)) = false \/
     Rdf.calls t' =
       Rdf.calls t ++ [Rdf.CallNext; Rdf.CallTerm; Rdf.CallNext; Rdf.CallClose] /\
     fst (Rdf.Next (Rdf.inner t)) = true).
Proof.
  unfold Rdf.GetOneTerm. cbn.
  destruct (Rdf.Next (Rdf.inner t)) as [more s1]. destruct more; cbn.
  - destruct (Rdf.Term s1) as [val s2]. cbn.
    destruct (Rdf.Next s2) as [more2 s3].
    destruct more2; do 2 eexists; (split; [reflexivity|]); right;
      cbn; rewrite <- !app_assoc; split; reflexivity.
  - do 2 eexists. split; [reflexivity|]. left.
    cbn. rewrite <- !app_assoc. split; reflexivity.
Qed.

Lemma sub_yields {T S : Type} `{Rdf.TripleIterator T S} (s : S)
    (l : list (option T)) :
  Rdf.Yields Rdf.Subject s l ->
  Rdf.Yields Rdf.Term (Rdf.SubjectIterator s) l.
Proof.
  induction 1 as [s Hnone|s l Hsome Hrest IH].
  - apply Rdf.Yields_nil. cbn. destruct (Rdf.Next s). exact Hnone.
  - destruct (Rdf.Next s) as [more s1] eqn:Hn. cbn [fst snd] in *.
    destruct (Rdf.Subject s1) as [v s2] eqn:Hv. cbn [fst snd] in *.
    apply (Yields_step _ _ (Rdf.SubjectIterator s2)).
    + cbn. rewrite Hn. exact Hsome.
    + cbn. rewrite Hn. cbn. rewrite Hv. reflexivity.
    + exact IH.
Qed.

Lemma pred_yields {T S : Type} `{Rdf.TripleIterator T S} (s : S)
    (l : list (option T)) :
  Rdf.Yields Rdf.Predicate s l ->
  Rdf.Yields Rdf.Term (Rdf.PredicateIterator s) l.
Proof.
  induction 1 as [s Hnone|s l Hsome Hrest IH].
  - apply Rdf.Yields_nil. cbn. destruct (Rdf.Next s). exact Hnone.
  - destruct (Rdf.Next s) as [more s1] eqn:Hn. cbn [fst snd] in *.
    destruct (Rdf.Predicate s1) as [v s2] eqn:Hv. cbn [fst snd] in *.
    apply (Yields_step _ _ (Rdf.PredicateIterator s2)).
    + cbn. rewrite Hn. exact Hsome.
    + cbn. rewrite Hn. cbn. rewrite Hv. reflexivity.
    + exact IH.
Qed.

Lemma obj_yields {T S : Type} `{Rdf.TripleIterator T S} (s : S)
    (l : list (option T)) :
  Rdf.Yields Rdf.Object s l ->
  Rdf.Yields Rdf.Term (Rdf.ObjectIterator s) l.
Proof.
  induction 1 as [s Hnone|s l Hsome Hrest IH].
  - apply Rdf.Yields_nil. cbn. destruct (Rdf.Next s). exact Hnone.
  - destruct (Rdf.Next s) as [more s1] eqn:Hn. cbn [fst snd] in *.
    destruct (Rdf.Object s1) as [v s2] eqn:Hv. cbn [fst snd] in *.
    apply (Yields_step _ _ (Rdf.ObjectIterator s2)).
    + cbn. rewrite Hn. exact Hsome.
    + cbn. rewrite Hn. cbn. rewrite Hv. reflexivity.
    + exact IH.
Qed.

(** X17.  [GetOneTerm] over [SubjectIterator], [PredicateIterator] and
    [ObjectIterator] applies the same rule to the subjects, the predicates
    and the objects of the triples of the underlying iterator: nil without
    error when there is no triple, the component of the triple when there is
    exactly one, an error when there are more. *)
Theorem GetOneTerm_on_projections {T S : Type} `{Rdf.TripleIterator T S}
    (s : S) (subjects predicates objects : list (option T)) :
  Rdf.Yields Rdf.Subject s subjects ->
  Rdf.Yields Rdf.Predicate s predicates ->
  Rdf.Yields Rdf.Object s objects ->
  let pick := fun l : list (option T) =>
    match l with
    | [] => (None, None)
    | [t] => (t, None)
    | _ :: _ :: _ => (None, Some (Errorf "expected only one value"))
    end in
  (exists i, Rdf.GetOneTerm (Some (Rdf.SubjectIterator s)) =
             Returns (pick subjects, Rdf.Close i)) /\
  (exists i, Rdf.GetOneTerm (Some (Rdf.PredicateIterator s)) =
             Returns (pick predicates, Rdf.Close i)) /\
  (exists i, Rdf.GetOneTerm (Some (Rdf.ObjectIterator s)) =
             Returns (pick objects, Rdf.Close i)).
Proof.
  intros Hs Hp Ho pick. split; [|split].
  - apply (GetOneTerm_of_yields _ _ (sub_yields s subjects Hs)).
  - apply (GetOneTerm_of_yields _ _ (pred_yields s predicates Hp)).
  - apply (GetOneTerm_of_yields _ _ (obj_yields s objects Ho)).
Qed.

Section NodeBuilderProperties.

Context {N T B : Type} `{Rdf.GraphBuilder N T B}.

Lemma add_objects (node p : N) (objs : list T) :
  forall r : Rdf.Recording N T B,
    Rdf.added
      (fold_left (fun b' obj => Rdf.AddTriple b' (Rdf.mkTriple node p obj)) objs r) =
    Rdf.added r ++ map (Rdf.mkTriple node p) objs.
Proof.
  induction objs as [|obj objs IH]; intros r; cbn [fold_left map].
  - rewrite app_nil_r. reflexivity.
  - rewrite IH. cbn. rewrite <- app_assoc. reflexivity.
Qed.

Lemma add_entries (node : N) (props : list (N * list T)) :
  forall r : Rdf.Recording N T B,
    Rdf.added
      (fold_left
         (fun b entry =>
            fold_left
              (fun b' obj => Rdf.AddTriple b' (Rdf.mkTriple node (fst entry) obj))
              (snd entry) b)
         props r) =
    Rdf.added r ++ Rdf.triples_of node props.
Proof.
  induction props as [|entry props IH]; intros r;
    cbn [fold_left Rdf.triples_of flat_map].
  - rewrite app_nil_r. reflexivity.
  - rewrite IH, add_objects, <- app_assoc. reflexivity.
Qed.

Lemma triples_of_subject (node : N) (props : list (N * list T)) :
  Forall (fun t => Rdf.t_Subject t = node) (Rdf.triples_of node props).
Proof.
  unfold Rdf.triples_of. apply Forall_flat_map.
  apply Forall_forall. intros entry _. apply Forall_map.
  apply Forall_forall. intros obj _. reflexivity.
Qed.

Lemma add_objects_builder (node p : N) (objs : list T) :
  forall r : Rdf.Recording N T B,
    Rdf.recorded_builder
      (fold_left (fun b' obj => Rdf.AddTriple b' (Rdf.mkTriple node p obj)) objs r) =
    fold_left Rdf.AddTriple (map (Rdf.mkTriple node p) objs)
      (Rdf.recorded_builder r).
Proof.
  induction objs as [|obj objs IH]; intros r; cbn [fold_left map].
  - reflexivity.
  - rewrite IH. reflexivity.
Qed.

Lemma add_entries_builder (node : N) (props : list (N * list T)) :
  forall r : Rdf.Recording N T B,
    Rdf.recorded_builder
      (fold_left
         (fun b entry =>
            fold_left
              (fun b' obj => Rdf.AddTriple b' (Rdf.mkTriple node (fst entry) obj))
              (snd entry) b)
         props r) =
    fold_left Rdf.AddTriple (Rdf.triples_of node props) (Rdf.recorded_builder r).
Proof.
  induction props as [|entry props IH]; intros r;
    cbn [fold_left Rdf.triples_of flat_map].
  - reflexivity.
  - rewrite fold_left_app, IH, add_objects_builder. reflexivity.
Qed.

(** X18.  [NewNodeBuilder] asks the builder for one blank node and adds one
    triple per object of [props], each with that node as subject and the key
    of the object's entry as predicate, in the order of the visit; it is
    [NewNodeBuilder] without properties followed by [AddProps].  [AddProps]
    adds the triples of its properties in the same way after those already
    there, and keeps the node.  The builder underneath is left as one
    [NewBNode] followed by these [AddTriple] calls leave it: it is not asked
    for a second node, and [AddProps] asks for none. *)
Theorem NodeBuilder_adds_triples (r : Rdf.Recording N T B)
    (props props2 : list (N * list T)) :
  let nb := Rdf.NewNodeBuilder r props in
  let nb2 := Rdf.AddProps nb props2 in
  Rdf.Node nb = fst (Rdf.NewBNode (Rdf.recorded_builder r)) /\
  Rdf.added (Rdf.Builder nb) = Rdf.added r ++ Rdf.triples_of (Rdf.Node nb) props /\
  Rdf.recorded_builder (Rdf.Builder nb) =
    fold_left Rdf.AddTriple (Rdf.triples_of (Rdf.Node nb) props)
      (snd (Rdf.NewBNode (Rdf.recorded_builder r))) /\
  Rdf.NewNodeBuilder r props = Rdf.AddProps (Rdf.NewNodeBuilder r []) props /\
  Rdf.Node nb2 = Rdf.Node nb /\
  Rdf.added (Rdf.Builder nb2) =
    Rdf.added r ++ Rdf.triples_of (Rdf.Node nb) (props ++ props2) /\
  Rdf.recorded_builder (Rdf.Builder nb2) =
    fold_left Rdf.AddTriple (Rdf.triples_of (Rdf.Node nb) props2)
      (Rdf.recorded_builder (Rdf.Builder nb)) /\
  Forall (fun t => Rdf.t_Subject t = Rdf.Node nb)
    (Rdf.triples_of (Rdf.Node nb) (props ++ props2)).
Proof.
  intros nb nb2. subst nb2 nb. unfold Rdf.NewNodeBuilder, Rdf.AddProps.
  cbn [Rdf.NewBNode Rdf.Recording_GraphBuilder].
  destruct (Rdf.NewBNode (Rdf.recorded_builder r)) as [bNode b1].
  cbn [Rdf.Node Rdf.Builder fst snd fold_left].
  split; [reflexivity|].
  split; [rewrite add_entries; reflexivity|].
  split; [rewrite add_entries_builder; reflexivity|].
  split; [reflexivity|].
  split; [reflexivity|].
  split; [|split; [apply add_entries_builder|apply triples_of_subject]].
  rewrite !add_entries. cbn [Rdf.added].
  unfold Rdf.triples_of. rewrite flat_map_app, app_assoc. reflexivity.
Qed.

(** X19.  The order in which the map of properties is visited does not
    matter to what is added: two visits of the same entries hand the builder
    the same triples, each as many times, in a possibly different order. *)
Theorem AddProps_any_visit_order (nb : Rdf.NodeBuilder N (Rdf.Recording N T B))
    (props props' : list (N * list T)) :
  Permutation props props' ->
  Permutation (Rdf.added (Rdf.Builder (Rdf.AddProps nb props)))
              (Rdf.added (Rdf.Builder (Rdf.AddProps nb props'))) /\
  Rdf.Node (Rdf.AddProps nb props) = Rdf.Node (Rdf.AddProps nb props').
Proof.
  intros Hperm. split; [|reflexivity].
  unfold Rdf.AddProps. cbn [Rdf.Builder]. rewrite !add_entries.
  apply Permutation_app_head. unfold Rdf.triples_of.
  apply Permutation_flat_map, Hperm.
Qed.

End NodeBuilderProperties.

(** * Simulation manager: properties *)

Section ManagerProperties.

Variables (SimulationState Rand StoreDecoderRegistry RegenApp : Type).
Variables (WeightedProposalContent ParamChange WeightedOperation : Type).

#[local] Abbreviation Module_ :=
  (Simulation.AppModuleSimulation SimulationState Rand StoreDecoderRegistry
     WeightedProposalContent ParamChange WeightedOperation).

Lemma append_all_Some {A : Type} (l : list A) (xs : slice A) :
  Simulation.append_all (Some l) xs = Some (l ++ elems xs).
Proof. reflexivity. Qed.

Lemma collect_contents (simState : SimulationState) (ms : list Module_) :
  forall acc : list WeightedProposalContent,
    fold_left
      (fun w m => Simulation.append_all w (Simulation.ProposalContents m simState))
      ms (Some acc) =
    Some (acc ++
          flat_map (fun m => elems (Simulation.ProposalContents m simState)) ms).
Proof.
  induction ms as [|m ms IH]; intros acc; cbn [fold_left flat_map].
  - rewrite app_nil_r. reflexivity.
  - rewrite append_all_Some, IH, <- app_assoc. reflexivity.
Qed.

(** X20.  [GetProposalContents] of a manager built by
    [NewSimulationManager] returns the proposal contents of the modules
    concatenated in the order the modules were given, as a slice that is
    never nil, even without modules or when every module returns nil. *)
Theorem GetProposalContents_concatenates (emptyRegistry : StoreDecoderRegistry)
    (app : option RegenApp) (modules : slice Module_)
    (simState : SimulationState) :
  Simulation.GetProposalContents
    (Simulation.NewSimulationManager emptyRegistry app modules) simState =
  Some (flat_map (fun m => elems (Simulation.ProposalContents m simState))
          (elems modules)).
Proof.
  unfold Simulation.GetProposalContents, Simulation.NewSimulationManager.
  cbn [Simulation.Modules]. apply (collect_contents simState (elems modules) []).
Qed.

Lemma append_all_elems {A : Type} (s xs : slice A) :
  elems (Simulation.append_all s xs) = elems s ++ elems xs /\
  (is_nil (Simulation.append_all s xs) = true <->
   is_nil s = true /\ elems xs = []).
Proof.
  unfold Simulation.append_all. destruct s as [l0|]; cbn.
  - split; [reflexivity|]. split; [discriminate|intros [Hf _]; discriminate].
  - destruct (elems xs) as [|x l]; cbn.
    + split; [reflexivity|]. split; auto.
    + split; [reflexivity|]. split; [discriminate|intros [_ Hf]; discriminate].
Qed.

Lemma collect_changes (ms : list Module_) :
  forall (acc : slice ParamChange) (r : Rand),
    let out :=
      fold_left
        (fun acc m =>
           let (changes, r') := Simulation.RandomizedParams m (snd acc) in
           (Simulation.append_all (fst acc) changes, r'))
        ms (acc, r) in
    (is_nil (fst out) = true <-> is_nil acc = true /\ elems (fst out) = []) /\
    elems (fst out) = elems acc ++ Simulation.drawn_changes ms r /\
    (ms = [] -> out = (acc, r)).
Proof.
  induction ms as [|m ms IH]; intros acc r;
    cbn [fold_left Simulation.drawn_changes].
  - cbn [fst]. split; [|split; [rewrite app_nil_r|]; reflexivity].
    destruct acc as [l|]; cbn; split; try discriminate; auto.
    intros [Hf _]. discriminate.
  - cbn [fst snd].
    destruct (Simulation.RandomizedParams m r) as [changes r'].
    cbn [fst snd].
    destruct (IH (Simulation.append_all acc changes) r') as (IH1 & IH2 & _).
    cbv zeta in IH1, IH2.
    set (out := fold_left _ ms _) in *.
    destruct (append_all_elems acc changes) as [Hel Hnil].
    rewrite Hel in IH2.
    split; [|split; [|discriminate]].
    + rewrite IH1, Hnil. split; [tauto|].
      intros [Hacc Hout]. split; [|exact Hout]. split; [exact Hacc|].
      rewrite Hout in IH2. symmetry in IH2.
      apply app_eq_nil in IH2. destruct IH2 as [IH2 _].
      apply app_eq_nil in IH2. apply IH2.
    + rewrite IH2, app_assoc. reflexivity.
Qed.

(** X21.  The slice [GenerateParamChanges] returns holds the parameter
    changes of the modules in the order the modules were given, the first
    module drawing from the generator seeded with [seed] and each later one
    from the generator as the module before it left it
    ([Simulation.drawn_changes]).  The slice is nil exactly when the modules
    produce no change at all, so it is never an empty slice that is not nil;
    without modules it is nil. *)
Theorem GenerateParamChanges_nil_iff_empty (emptyRegistry : StoreDecoderRegistry)
    (NewRand : Z -> Rand) (app : option RegenApp) (modules : slice Module_)
    (seed : Z) :
  let changes :=
    Simulation.GenerateParamChanges NewRand
      (Simulation.NewSimulationManager emptyRegistry app modules) seed in
  elems changes = Simulation.drawn_changes (elems modules) (NewRand seed) /\
  (is_nil changes = true <->
   Simulation.drawn_changes (elems modules) (NewRand seed) = []) /\
  (is_nil changes = true <-> elems changes = []) /\
  (elems modules = [] -> changes = None).
Proof.
  intros changes. subst changes.
  unfold Simulation.GenerateParamChanges, Simulation.NewSimulationManager.
  cbn [Simulation.Modules].
  destruct (collect_changes (elems modules) None (NewRand seed))
    as (Hnil & Hel & Hnone).
  cbv zeta in Hnil, Hel, Hnone. cbn in Hel.
  split; [exact Hel|]. split; [|split].
  - rewrite Hnil, Hel. cbn. tauto.
  - rewrite Hnil. cbn. tauto.
  - intros Hm. rewrite Hm. reflexivity.
Qed.

End ManagerProperties.

Lemma sliceIterator_yields {T : Type} (l : list (option T)) :
  forall c : option T, Rdf.Yields Rdf.Term (Rdf.mkSliceIterator c l) l.
Proof.
  induction l as [|x l IH]; intros c.
  - apply Rdf.Yields_nil. reflexivity.
  - apply (Yields_step Rdf.Term _ (Rdf.mkSliceIterator x l));
      [reflexivity|reflexivity|apply IH].
Qed.

(** X15, on concrete inputs: no term, one term, two terms. *)
Lemma GetOneTerm_spec_witness :
  fst (match Rdf.GetOneTerm (Some (Rdf.mkSliceIterator (@None nat) [])) with
       | Returns out => out
       | Panics _ => ((None, None), Rdf.mkSliceIterator None [])
       end) = (None, None) /\
  (exists s',
      Rdf.GetOneTerm (Some (Rdf.mkSliceIterator (@None nat) [Some 7%nat])) =
      Returns ((Some 7%nat, None), Rdf.Close s')) /\
  (exists s',
      Rdf.GetOneTerm
        (Some (Rdf.mkSliceIterator (@None nat) [Some 7%nat; Some 8%nat])) =
      Returns ((None, Some (Errorf "expected only one value")), Rdf.Close s')).
Proof.
  split; [reflexivity|]. split.
  - exact (proj1 (GetOneTerm_spec (Rdf.mkSliceIterator None [Some 7%nat])
                    [Some 7%nat] (sliceIterator_yields _ None))).
  - exact (proj1 (GetOneTerm_spec
                    (Rdf.mkSliceIterator None [Some 7%nat; Some 8%nat])
                    [Some 7%nat; Some 8%nat] (sliceIterator_yields _ None))).
Defined.

Lemma tripleSlice_yields {T : Type}
    (get : Rdf.tripleSlice T -> option T * Rdf.tripleSlice T)
    (proj : option T * option T * option T -> option T)
    (l : list (option T * option T * option T)) :
  (forall s, get s = (proj (Rdf.current_triple s), s)) ->
  forall c, Rdf.Yields get (Rdf.mkTripleSlice c l) (map proj l).
Proof.
  intros Hget. induction l as [|x l IH]; intros c; cbn [map].
  - apply Rdf.Yields_nil. reflexivity.
  - apply (Yields_step get _ (Rdf.mkTripleSlice x l));
      [reflexivity|apply Hget|apply IH].
Qed.

(** X17, on a concrete input: an iterator over the single triple
    (1, 2, 3). *)
Lemma GetOneTerm_on_projections_witness :
  let s := Rdf.mkTripleSlice (@None nat, None, None)
             [(Some 1%nat, Some 2%nat, Some 3%nat)] in
  (exists i, Rdf.GetOneTerm (Some (Rdf.SubjectIterator s)) =
             Returns ((Some 1%nat, None), Rdf.Close i)) /\
  (exists i, Rdf.GetOneTerm (Some (Rdf.PredicateIterator s)) =
             Returns ((Some 2%nat, None), Rdf.Close i)) /\
  (exists i, Rdf.GetOneTerm (Some (Rdf.ObjectIterator s)) =
             Returns ((Some 3%nat, None), Rdf.Close i)).
Proof.
  intros s.
  exact (GetOneTerm_on_projections s [Some 1%nat] [Some 2%nat] [Some 3%nat]
           (tripleSlice_yields Rdf.Subject (fun x => fst (fst x)) _
              (fun _ => eq_refl) _)
           (tripleSlice_yields Rdf.Predicate (fun x => snd (fst x)) _
              (fun _ => eq_refl) _)
           (tripleSlice_yields Rdf.Object (fun x => snd x) _
              (fun _ => eq_refl) _)).
Defined.

(** X19, on a concrete input: a map with two entries, visited in either
    order. *)
Lemma AddProps_any_visit_order_witness :
  let nb : Rdf.NodeBuilder nat (Rdf.Recording nat nat nat) :=
    Rdf.mkNodeBuilder (Rdf.mkRecording 1%nat []) 0%nat in
  let visit := [(5%nat, [50%nat; 51%nat]); (6%nat, [60%nat])] in
  let visit' := [(6%nat, [60%nat]); (5%nat, [50%nat; 51%nat])] in
  Rdf.added (Rdf.Builder (Rdf.AddProps nb visit)) =
    [Rdf.mkTriple 0%nat 5%nat 50%nat; Rdf.mkTriple 0%nat 5%nat 51%nat;
     Rdf.mkTriple 0%nat 6%nat 60%nat] /\
  Permutation (Rdf.added (Rdf.Builder (Rdf.AddProps nb visit)))
              (Rdf.added (Rdf.Builder (Rdf.AddProps nb visit'))).
Proof.
  intros nb visit visit'. split; [reflexivity|].
  exact (proj1 (AddProps_any_visit_order nb visit visit' (perm_swap _ _ []))).
Defined.

(** X18, on a concrete input: over a builder that numbers its blank nodes
    from 7, the node is 7 and the builder is left at 8 by [NewNodeBuilder]
    and by [AddProps] after it, with the three triples added in the order of
    the visit. *)
Lemma NodeBuilder_adds_triples_witness :
  let r : Rdf.Recording nat nat nat := Rdf.mkRecording 7%nat [] in
  let nb := Rdf.NewNodeBuilder r [(5%nat, [50%nat; 51%nat])] in
  let nb2 := Rdf.AddProps nb [(6%nat, [60%nat])] in
  Rdf.Node nb = 7%nat /\
  Rdf.recorded_builder (Rdf.Builder nb) = 8%nat /\
  Rdf.recorded_builder (Rdf.Builder nb2) = 8%nat /\
  Rdf.added (Rdf.Builder nb2) =
    [Rdf.mkTriple 7%nat 5%nat 50%nat; Rdf.mkTriple 7%nat 5%nat 51%nat;
     Rdf.mkTriple 7%nat 6%nat 60%nat].
Proof.
  intros r nb nb2.
  destruct (NodeBuilder_adds_triples r [(5%nat, [50%nat; 51%nat])]
              [(6%nat, [60%nat])])
    as (Hnode & _ & Hb & _ & _ & Hadded & Hb2 & _).
  split; [exact Hnode|]. split; [exact Hb|].
  split; [exact Hb2|exact Hadded].
Defined.

(** X21, on a concrete input: the generator is a counter seeded with the
    seed, and each of two modules returns the value it finds and leaves the
    counter one higher; a module without changes changes nothing. *)
Lemma GenerateParamChanges_nil_iff_empty_witness :
  let draw : Simulation.AppModuleSimulation unit Z unit unit Z unit :=
    Simulation.mkModule (fun st => st) (fun _ => None)
      (fun r => (Some [r], r + 1)) (fun reg => reg) (fun _ => None) in
  let idle : Simulation.AppModuleSimulation unit Z unit unit Z unit :=
    Simulation.mkModule (fun st => st) (fun _ => None)
      (fun r => (Some [], r + 1)) (fun reg => reg) (fun _ => None) in
  let manager := fun modules =>
    Simulation.NewSimulationManager tt (@None unit) (Some modules) in
  elems (Simulation.GenerateParamChanges (fun seed => seed)
           (manager [draw; idle; draw]) 40) = [40; 42] /\
  Simulation.GenerateParamChanges (fun seed => seed)
    (manager [idle; idle]) 40 = None.
Proof.
  intros draw idle manager. split.
  - exact (proj1 (GenerateParamChanges_nil_iff_empty unit Z unit unit unit Z
                    unit tt (fun seed => seed) (@None unit)
                    (Some [draw; idle; draw]) 40)).
  - reflexivity.
Defined.
